(** * BB84 quantum key distribution notebook (notebooks/BB84.ipynb)

    A shallow embedding of the code cells of the notebook: the generation of
    the three random bit arrays (cell 3), [make_bb84_circ] (cell 5) and the
    key sifting loop with its statistics (cell 7).

    Python exceptions are an error monad, [for ... in range(n)] is a monadic
    fold over [seq 0 n], numpy integer arrays are [list Z], Python [str] is
    [list ascii].  The calls into numpy and Qiskit are modelled by what the
    notebook observes of them; the sampling of measurement outcomes is a
    parameter. *)

From stdpp Require Import base numbers list strings.
From Stdlib Require Import Ascii.

Local Open Scope Z_scope.

(** ** Python: exceptions, indexing, [for] loops *)

Module Python.

Inductive exn : Type :=
| IndexError     (* sequence index out of range *)
| ValueError     (* numpy: negative dimensions are not allowed *)
| CircuitError.  (* Qiskit: qubit index out of range *)

Inductive result (A : Type) : Type :=
| Ok (a : A)
| Raise (e : exn).

Arguments Ok {A} a.
Arguments Raise {A} e.

#[global] Instance result_ret : MRet result := λ A a, Ok a.

#[global] Instance result_bind : MBind result := λ A B f m,
  match m with
  | Ok a => f a
  | Raise e => Raise e
  end.

(** [seq[i]] for a non-negative [i]: numpy arrays, lists and strings all
    raise IndexError past the end. *)
Definition getitem {A : Type} (s : list A) (i : nat) : result A :=
  match s !! i with
  | Some v => Ok v
  | None => Raise IndexError
  end.

(** [for i in idx: st = body(i, st)]; an exception leaves the loop. *)
Fixpoint for_each {St : Type} (idx : list nat)
    (body : nat → St → result St) (st : St) : result St :=
  match idx with
  | [] => Ok st
  | i :: idx' => st' ← body i st; for_each idx' body st'
  end.

(** [for i in range(n)] *)
Definition for_range {St : Type} (n : nat) (body : nat → St → result St)
    (st : St) : result St :=
  for_each (seq 0 n) body st.

(** Python [str]: a sequence of characters. *)
Abbreviation str := (list ascii).

(** [s.count(c)] for a one-character [c]. *)
Definition count (c : ascii) (s : str) : nat :=
  length (filter (λ d, d = c) s).

End Python.

Export Python.

(** ** numpy.random: the process-wide generator, passed explicitly *)

Module np_random.

(** The generator is an entropy tape and a cursor into it. *)
Record RandomState : Type := {
  entropy : nat → Z;
  cursor : nat
}.

Definition draw (high : Z) (g : RandomState) : Z * RandomState :=
  (entropy g (cursor g) `mod` high,
   {| entropy := entropy g; cursor := S (cursor g) |}).

Fixpoint draws (high : Z) (n : nat) (g : RandomState) : list Z * RandomState :=
  match n with
  | O => ([], g)
  | S n' =>
      let '(v, g1) := draw high g in
      let '(vs, g2) := draws high n' g1 in
      (v :: vs, g2)
  end.

(** [np.random.randint(high, size=size)]: [size] integers in [0, high); numpy
    refuses a negative [size] and returns an empty array for [size = 0]. *)
Definition randint (high : Z) (size : Z) (g : RandomState)
    : result (list Z * RandomState) :=
  if decide (size < 0) then Raise ValueError
  else Ok (draws high (Z.to_nat size) g).

End np_random.

(** ** Qiskit: the circuit builder calls the notebook makes *)

Module Qiskit.

(** An instruction is one builder call with its wires resolved. *)
Inductive Instruction : Type :=
| XGate (qubit : nat)
| HGate (qubit : nat)
| Barrier                               (* barrier(): across every qubit *)
| Measure (qubits clbits : list nat).   (* qubits[k] is read into clbits[k] *)

#[global] Instance Instruction_eq_dec : EqDecision Instruction.
Proof. solve_decision. Defined.

Record QuantumCircuit : Type := {
  num_qubits : nat;
  num_clbits : nat;
  data : list Instruction
}.

(** [QuantumCircuit(n)]: [n] qubits, no classical bit, no instruction. *)
Definition QuantumCircuit_init (n : nat) : QuantumCircuit :=
  {| num_qubits := n; num_clbits := 0; data := [] |}.

Definition append (circ : QuantumCircuit) (ops : list Instruction)
    : QuantumCircuit :=
  {| num_qubits := num_qubits circ;
     num_clbits := num_clbits circ;
     data := data circ ++ ops |}.

(** [circ.x(qubit)] *)
Definition x (circ : QuantumCircuit) (qubit : nat) : result QuantumCircuit :=
  if decide (qubit < num_qubits circ)%nat then Ok (append circ [XGate qubit])
  else Raise CircuitError.

(** [circ.h(qubit)] *)
Definition h (circ : QuantumCircuit) (qubit : nat) : result QuantumCircuit :=
  if decide (qubit < num_qubits circ)%nat then Ok (append circ [HGate qubit])
  else Raise CircuitError.

(** [circ.barrier()] *)
Definition barrier (circ : QuantumCircuit) : result QuantumCircuit :=
  Ok (append circ [Barrier]).

(** [circ.measure_all()]: a fresh classical register as wide as the circuit,
    qubit [q] read into its bit [q].  The call is kept as the one measurement
    it stands for; how Qiskit lowers it (a barrier of its own, then one
    measurement per qubit) is not recorded. *)
Definition measure_all (circ : QuantumCircuit) : result QuantumCircuit :=
  Ok {| num_qubits := num_qubits circ;
        num_clbits := (num_clbits circ + num_qubits circ)%nat;
        data := data circ ++
                [Measure (seq 0 (num_qubits circ))
                         (seq (num_clbits circ) (num_qubits circ))] |}.

(** Wire [w] of [n] after the vertical flip. *)
Definition flip (n w : nat) : nat := (n - w - 1)%nat.

Definition reverse_instruction (nq nc : nat) (inst : Instruction)
    : Instruction :=
  match inst with
  | XGate q => XGate (flip nq q)
  | HGate q => HGate (flip nq q)
  | Barrier => Barrier
  | Measure qs cs => Measure (flip nq <$> qs) (flip nc <$> cs)
  end.

(** [circ.reverse_bits()]: the same instructions on the opposite order of
    wires, quantum and classical. *)
Definition reverse_bits (circ : QuantumCircuit) : QuantumCircuit :=
  {| num_qubits := num_qubits circ;
     num_clbits := num_clbits circ;
     data := reverse_instruction (num_qubits circ) (num_clbits circ)
               <$> data circ |}.

End Qiskit.

Export Qiskit.

(** ** Cell 3: the three random bit arrays *)

(** [np.random.randint(2, size=num_qubits)] *)
Definition random_bits (num_qubits : Z) (g : np_random.RandomState)
    : result (list Z * np_random.RandomState) :=
  np_random.randint 2 num_qubits g.

Record Bitstrings : Type := {
  alice_basis : list Z;
  alice_state : list Z;
  bob_basis : list Z
}.

Definition cell_3 (num_qubits : Z) (g : np_random.RandomState)
    : result (Bitstrings * np_random.RandomState) :=
  '(basis_a, g) ← random_bits num_qubits g;
  '(state_a, g) ← random_bits num_qubits g;
  '(basis_b, g) ← random_bits num_qubits g;
  Ok ({| alice_basis := basis_a; alice_state := state_a;
         bob_basis := basis_b |}, g).

(** ** Cell 5: [make_bb84_circ] *)

(** Body of the loop "Sender prepares qubits". *)
Definition sender_step (enc_state enc_basis : list Z) (index : nat)
    (bb84_circ : QuantumCircuit) : result QuantumCircuit :=
  s ← getitem enc_state index;
  bb84_circ ← (if decide (s = 1) then x bb84_circ index else Ok bb84_circ);
  b ← getitem enc_basis index;
  if decide (b = 1) then h bb84_circ index else Ok bb84_circ.

(** Body of the loop "Receiver measures the received qubits". *)
Definition receiver_step (meas_basis : list Z) (index : nat)
    (bb84_circ : QuantumCircuit) : result QuantumCircuit :=
  b ← getitem meas_basis index;
  if decide (b = 1) then h bb84_circ index else Ok bb84_circ.

Definition make_bb84_circ (enc_state enc_basis meas_basis : list Z)
    : result QuantumCircuit :=
  let num_qubits := length enc_state in
  let bb84_circ := QuantumCircuit_init num_qubits in
  bb84_circ ← for_range (length enc_basis)
                (sender_step enc_state enc_basis) bb84_circ;
  bb84_circ ← barrier bb84_circ;
  bb84_circ ← for_range (length meas_basis)
                (receiver_step meas_basis) bb84_circ;
  bb84_circ ← barrier bb84_circ;
  measure_all bb84_circ.

(** ** Cell 7: one shot, sifting, statistics *)

Definition bit_char (b : bool) : ascii :=
  if b then "1"%char else "0"%char.

(** [execute(circ, backend=QasmSimulator(), shots=1).result().get_counts()
    .most_frequent()]: the single sampled bit string.  [shot circ c] is the
    value the simulator leaves in classical bit [c]; Qiskit prints the highest
    classical bit first. *)
Definition most_frequent (shot : QuantumCircuit → nat → bool)
    (circ : QuantumCircuit) : str :=
  (λ k, bit_char (shot circ (flip (num_clbits circ) k)))
    <$> seq 0 (num_clbits circ).

(** Body of the sifting loop. *)
Definition sift_step (alice_basis bob_basis : list Z) (temp_key : str)
    (i : nat) (key : str) : result str :=
  a ← getitem alice_basis i;
  b ← getitem bob_basis i;
  if decide (a = b) then
    c ← getitem temp_key i;
    Ok (key ++ [c])
  else Ok key.

(** [key = ''; for i in range(num_qubits): ...] *)
Definition sift (num_qubits : nat) (alice_basis bob_basis : list Z)
    (temp_key : str) : result str :=
  for_range num_qubits (sift_step alice_basis bob_basis temp_key) [].

(** The three numbers the cell prints. *)
Record KeyReport : Type := {
  key_length : nat;
  zeroCount : nat;
  oneCount : nat
}.

Definition summarize (key : str) : KeyReport :=
  {| key_length := length key;
     zeroCount := count "0"%char key;
     oneCount := count "1"%char key |}.

Definition cell_7 (shot : QuantumCircuit → nat → bool) (num_qubits : nat)
    (bits : Bitstrings) : result (str * KeyReport) :=
  bb84_circ ← make_bb84_circ (alice_state bits) (alice_basis bits)
                (bob_basis bits);
  let temp_key := most_frequent shot (reverse_bits bb84_circ) in
  key ← sift num_qubits (alice_basis bits) (bob_basis bits) temp_key;
  Ok (key, summarize key).

(** ** Vocabulary of the specification *)

(** The indices below [n] where the two bases agree, in ascending order. *)
Definition agreeing (n : nat) (senderBasis receiverBasis : list Z)
    : list nat :=
  filter (λ i, senderBasis !! i = receiverBasis !! i) (seq 0 n).

(** What the sender's step puts on qubit [index]. *)
Definition encodingOps (index : nat) (stateBit basisBit : Z)
    : list Instruction :=
  (if decide (stateBit = 1) then [XGate index] else [])
  ++ (if decide (basisBit = 1) then [HGate index] else []).

(** What the receiver's step puts on qubit [index]. *)
Definition measurementOps (index : nat) (basisBit : Z) : list Instruction :=
  if decide (basisBit = 1) then [HGate index] else [].

(** All preparation steps, qubit 0 first. *)
Definition preparation (enc_state enc_basis : list Z) : list Instruction :=
  concat (imap (λ i sb, encodingOps i sb.1 sb.2) (zip enc_state enc_basis)).

(** All basis rotations, qubit 0 first. *)
Definition rotation (meas_basis : list Z) : list Instruction :=
  concat (imap measurementOps meas_basis).

(** The same two lists, read through the indices. *)
Definition encoding_at (enc_state enc_basis : list Z) (i : nat)
    : list Instruction :=
  match enc_state !! i, enc_basis !! i with
  | Some s, Some b => encodingOps i s b
  | _, _ => []
  end.

Definition rotation_at (meas_basis : list Z) (i : nat) : list Instruction :=
  match meas_basis !! i with
  | Some b => measurementOps i b
  | None => []
  end.

(** A string of characters 0 and 1. *)
Definition is_bitstring (s : str) : Prop :=
  Forall (λ c, c = "0"%char ∨ c = "1"%char) s.

#[global] Instance is_bitstring_dec (s : str) : Decision (is_bitstring s).
Proof. unfold is_bitstring. apply _. Defined.

(** An element of a bit array. *)
Definition is_bit (v : Z) : Prop := v = 0 ∨ v = 1.

(** Every gate of the instruction list acts on a qubit below [n]. *)
Definition gate_in_range (n : nat) (inst : Instruction) : Prop :=
  match inst with
  | XGate q | HGate q => (q < n)%nat
  | Barrier | Measure _ _ => True
  end.

(** The single-qubit gates, without their wire. *)
Inductive Gate : Type := PauliX | Hadamard.

Definition gate_on (q : nat) (inst : Instruction) : option Gate :=
  match inst with
  | XGate q' => if decide (q' = q) then Some PauliX else None
  | HGate q' => if decide (q' = q) then Some Hadamard else None
  | Barrier | Measure _ _ => None
  end.

(** The gates applied to qubit [q], in program order. *)
Definition wire (circ : QuantumCircuit) (q : nat) : list Gate :=
  omap (gate_on q) (data circ).

Definition reads_into (c : nat) (inst : Instruction) : list nat :=
  match inst with
  | Measure qs cs => (filter (λ qc, qc.2 = c) (zip qs cs)).*1
  | _ => []
  end.

(** The qubits whose measurement is stored in classical bit [c]. *)
Definition measured_into (circ : QuantumCircuit) (c : nat) : list nat :=
  concat (reads_into c <$> data circ).

(** The gates of the table of the encoder and of the measurer. *)
Definition encoding_gates (stateBit basisBit : Z) : list Gate :=
  (if decide (stateBit = 1) then [PauliX] else [])
  ++ (if decide (basisBit = 1) then [Hadamard] else []).

Definition measurement_gates (basisBit : Z) : list Gate :=
  if decide (basisBit = 1) then [Hadamard] else [].

(** ** Further vocabulary, for the properties beyond the specification *)

(** Every wire the instruction names exists in a circuit of [nq] qubits and
    [nc] classical bits. *)
Definition wires_in_range (nq nc : nat) (inst : Instruction) : Prop :=
  match inst with
  | XGate q | HGate q => (q < nq)%nat
  | Barrier => True
  | Measure qs cs =>
      Forall (λ q, (q < nq)%nat) qs ∧ Forall (λ c, (c < nc)%nat) cs
  end.

Definition well_formed (circ : QuantumCircuit) : Prop :=
  Forall (wires_in_range (num_qubits circ) (num_clbits circ)) (data circ).


Definition is_XGate (inst : Instruction) : bool :=
  match inst with XGate _ => true | _ => false end.

Definition is_HGate (inst : Instruction) : bool :=
  match inst with HGate _ => true | _ => false end.

Definition is_Barrier (inst : Instruction) : bool :=
  match inst with Barrier => true | _ => false end.

Definition is_Measure (inst : Instruction) : bool :=
  match inst with Measure _ _ => true | _ => false end.

(** How many instructions of a kind a program holds. *)
Definition how_many (kind : Instruction → bool) (ops : list Instruction)
    : nat :=
  length (filter (λ inst, kind inst) ops).

(** * Properties *)

(** ** The error monad and the loops *)

Lemma getitem_Some {A : Type} (s : list A) (i : nat) (v : A) :
  s !! i = Some v → getitem s i = Ok v.
Proof. intros Hv. unfold getitem. by rewrite Hv. Qed.

Lemma getitem_None {A : Type} (s : list A) (i : nat) :
  (length s ≤ i)%nat → getitem s i = Raise IndexError.
Proof. intros Hi. unfold getitem. by rewrite lookup_ge_None_2. Qed.

Lemma for_each_snoc {St : Type} (idx : list nat) (i : nat)
    (body : nat → St → result St) (st : St) :
  for_each (idx ++ [i]) body st = (st' ← for_each idx body st; body i st').
Proof.
  revert st. induction idx as [|j idx IH]; intros st; simpl.
  - by destruct (body i st).
  - destruct (body j st) as [st1|e]; simpl; [apply IH | done].
Qed.

Lemma filter_all {A : Type} (P : A → Prop) `{!∀ a, Decision (P a)}
    (l : list A) :
  Forall P l → filter P l = l.
Proof.
  induction 1 as [|a l Ha _ IH]; [done|].
  by rewrite filter_cons_True, IH.
Qed.

(** ** Sifting *)

Section Sifting.
Context (alice_basis bob_basis : list Z) (temp_key : str).

Let agree (i : nat) : Prop := alice_basis !! i = bob_basis !! i.

Lemma sift_step_keep (i : nat) (key : str) (c : ascii) :
  (i < length alice_basis)%nat → (i < length bob_basis)%nat →
  agree i → temp_key !! i = Some c →
  sift_step alice_basis bob_basis temp_key i key = Ok (key ++ [c]).
Proof.
  intros [a Ha]%lookup_lt_is_Some_2 [b Hb]%lookup_lt_is_Some_2 Hagree Hc.
  unfold sift_step. rewrite (getitem_Some _ _ _ Ha), (getitem_Some _ _ _ Hb).
  simpl. unfold agree in Hagree. rewrite Ha, Hb in Hagree.
  destruct (decide (a = b)) as [_|Hne]; [|congruence].
  by rewrite (getitem_Some _ _ _ Hc).
Qed.

Lemma sift_step_overrun (i : nat) (key : str) :
  (i < length alice_basis)%nat → (i < length bob_basis)%nat →
  agree i → (length temp_key ≤ i)%nat →
  sift_step alice_basis bob_basis temp_key i key = Raise IndexError.
Proof.
  intros [a Ha]%lookup_lt_is_Some_2 [b Hb]%lookup_lt_is_Some_2 Hagree Hc.
  unfold sift_step. rewrite (getitem_Some _ _ _ Ha), (getitem_Some _ _ _ Hb).
  simpl. unfold agree in Hagree. rewrite Ha, Hb in Hagree.
  destruct (decide (a = b)) as [_|Hne]; [|congruence].
  by rewrite getitem_None.
Qed.

Lemma sift_step_discard (i : nat) (key : str) :
  (i < length alice_basis)%nat → (i < length bob_basis)%nat →
  ¬ agree i →
  sift_step alice_basis bob_basis temp_key i key = Ok key.
Proof.
  intros [a Ha]%lookup_lt_is_Some_2 [b Hb]%lookup_lt_is_Some_2 Hagree.
  unfold sift_step. rewrite (getitem_Some _ _ _ Ha), (getitem_Some _ _ _ Hb).
  simpl. unfold agree in Hagree. rewrite Ha, Hb in Hagree.
  destruct (decide (a = b)) as [->|Hne]; [by destruct Hagree | done].
Qed.

(** The loop over any run of in-range indices: the key grows by the
    outcome characters at the agreeing indices, in the order visited. *)
Lemma sift_loop (idx : list nat) (key : str) :
  (∀ i, i ∈ idx → (i < length alice_basis)%nat ∧ (i < length bob_basis)%nat) →
  (∀ i, i ∈ idx → agree i → (i < length temp_key)%nat) →
  for_each idx (sift_step alice_basis bob_basis temp_key) key
  = Ok (key ++ omap (λ i, temp_key !! i) (filter agree idx)).
Proof.
  revert key. induction idx as [|i idx IH]; intros key Hrange Hkey.
  - simpl. by rewrite app_nil_r.
  - destruct (Hrange i) as [Ha Hb]; [left|].
    assert (Htail : for_each (i :: idx) (sift_step alice_basis bob_basis temp_key) key
              = (st' ← sift_step alice_basis bob_basis temp_key i key;
                 for_each idx (sift_step alice_basis bob_basis temp_key) st'))
      by done.
    rewrite Htail. clear Htail. rewrite filter_cons.
    destruct (decide (agree i)) as [Hi|Hi].
    + destruct (lookup_lt_is_Some_2 temp_key i) as [c Hc];
        [apply Hkey; [left | done]|].
      rewrite (sift_step_keep i key c); [|done..]. simpl. rewrite Hc.
      rewrite IH.
      * by rewrite <- app_assoc.
      * intros j Hj. apply Hrange. by right.
      * intros j Hj. apply Hkey. by right.
    + rewrite sift_step_discard; [|done..]. simpl. apply IH.
      * intros j Hj. apply Hrange. by right.
      * intros j Hj. apply Hkey. by right.
Qed.

(** The loop fails as soon as it must keep a position the outcome string
    does not have. *)
Lemma sift_loop_overrun (idx : list nat) (key : str) :
  (∀ i, i ∈ idx → (i < length alice_basis)%nat ∧ (i < length bob_basis)%nat) →
  (∃ i, i ∈ idx ∧ agree i ∧ (length temp_key ≤ i)%nat) →
  for_each idx (sift_step alice_basis bob_basis temp_key) key
  = Raise IndexError.
Proof.
  revert key. induction idx as [|i idx IH]; intros key Hrange (j & Hj & Hagree & Hover).
  - by apply elem_of_nil in Hj.
  - destruct (Hrange i) as [Ha Hb]; [left|].
    assert (Htail : for_each (i :: idx) (sift_step alice_basis bob_basis temp_key) key
              = (st' ← sift_step alice_basis bob_basis temp_key i key;
                 for_each idx (sift_step alice_basis bob_basis temp_key) st'))
      by done.
    rewrite Htail. clear Htail.
    assert (Hrest : ∀ k, k ∈ idx →
              (k < length alice_basis)%nat ∧ (k < length bob_basis)%nat)
      by (intros k Hk; apply Hrange; by right).
    destruct (decide (agree i)) as [Hi|Hi].
    + destruct (decide (i < length temp_key)%nat) as [Hlt|Hge].
      * destruct (lookup_lt_is_Some_2 temp_key i Hlt) as [c Hc].
        rewrite (sift_step_keep i key c); [|done..]. simpl.
        apply IH; [done|]. exists j. split_and!; [|done..].
        apply elem_of_cons in Hj as [->|Hj]; [lia | done].
      * rewrite sift_step_overrun; [done..|lia].
    + rewrite sift_step_discard; [|done..]. simpl.
      apply IH; [done|]. exists j. split_and!; [|done..].
      apply elem_of_cons in Hj as [->|Hj]; [done | done].
Qed.

(** The key read back through the list of agreeing indices. *)
Lemma picked_lookup (idx : list nat) (k j : nat) :
  (∀ i, i ∈ idx → (i < length temp_key)%nat) →
  idx !! k = Some j →
  omap (λ i, temp_key !! i) idx !! k = temp_key !! j.
Proof.
  revert k. induction idx as [|i idx IH]; intros k Hin Hk; [done|].
  destruct (lookup_lt_is_Some_2 temp_key i) as [c Hc]; [apply Hin; left|].
  simpl. rewrite Hc. simpl. destruct k as [|k]; simpl in *.
  - by simplify_eq.
  - apply IH; [|done]. intros i' Hi'. apply Hin. by right.
Qed.

Lemma picked_length (idx : list nat) :
  (∀ i, i ∈ idx → (i < length temp_key)%nat) →
  length (omap (λ i, temp_key !! i) idx) = length idx.
Proof.
  induction idx as [|i idx IH]; intros Hin; [done|].
  destruct (lookup_lt_is_Some_2 temp_key i) as [c Hc]; [apply Hin; left|].
  simpl. rewrite Hc. simpl. f_equal. apply IH.
  intros i' Hi'. apply Hin. by right.
Qed.

End Sifting.

Lemma elem_of_agreeing (n : nat) (a b : list Z) (i : nat) :
  i ∈ agreeing n a b ↔ (i < n)%nat ∧ a !! i = b !! i.
Proof.
  unfold agreeing. rewrite list_elem_of_filter, elem_of_seq.
  split; intros [H1 H2]; split; (done || lia).
Qed.

Lemma agreeing_lookup_lt (n : nat) (a b : list Z) (k j : nat) :
  agreeing n a b !! k = Some j → (j < n)%nat.
Proof.
  intros Hk. apply list_elem_of_lookup_2 in Hk.
  by apply elem_of_agreeing in Hk as [? _].
Qed.

(** Reading every position of a string gives the string back. *)
Lemma omap_lookup_seq (s : str) :
  omap (λ i, s !! i) (seq 0 (length s)) = s.
Proof.
  assert (Hin : ∀ i, i ∈ seq 0 (length s) → (i < length s)%nat)
    by (intros i Hi%elem_of_seq; lia).
  apply list_eq. intros k.
  destruct (decide (k < length s)%nat) as [Hk|Hk].
  - apply picked_lookup; [done|]. by rewrite lookup_seq_lt.
  - rewrite (lookup_ge_None_2 s) by lia.
    apply lookup_ge_None_2. rewrite picked_length, length_seq; [lia | done].
Qed.

Lemma sift_in_range (N : nat) (a b : list Z) (t : str) :
  length a = N → length b = N →
  (∀ j, j ∈ agreeing N a b → (j < length t)%nat) →
  sift N a b t = Ok (omap (λ i, t !! i) (agreeing N a b)).
Proof.
  intros Ha Hb Ht. unfold sift, for_range. rewrite sift_loop; [done|..].
  - intros i Hi%elem_of_seq. lia.
  - intros i Hi%elem_of_seq Hagree. apply Ht, elem_of_agreeing. split; [lia|done].
Qed.

(** C1: on three inputs of one length N the sifted key has as many bits as
    there are indices below N where the two bases agree, and its k-th bit is
    the outcome bit at the k-th agreeing index, in ascending order. *)
Theorem sift_correct (N : nat) (senderBasis receiverBasis : list Z)
    (outcome : str) :
  length senderBasis = N → length receiverBasis = N → length outcome = N →
  ∃ key, sift N senderBasis receiverBasis outcome = Ok key
    ∧ length key = length (agreeing N senderBasis receiverBasis)
    ∧ ∀ k j, agreeing N senderBasis receiverBasis !! k = Some j →
        ∃ c, outcome !! j = Some c ∧ key !! k = Some c.
Proof.
  intros Ha Hb Ht.
  assert (Hin : ∀ j, j ∈ agreeing N senderBasis receiverBasis →
            (j < length outcome)%nat).
  { intros j [Hj _]%elem_of_agreeing. lia. }
  eexists. split; [by apply sift_in_range|]. split.
  - by apply picked_length.
  - intros k j Hk.
    destruct (lookup_lt_is_Some_2 outcome j) as [c Hc].
    { apply Hin. by eapply list_elem_of_lookup_2. }
    exists c. split; [done|]. rewrite <- Hc. by apply picked_lookup.
Qed.

Lemma sift_correct_witness :
  let a := [0; 0; 1; 1] in
  let b := [0; 1; 1; 0] in
  let t := String.list_ascii_of_string "0111" in
  ∃ key, sift 4 a b t = Ok key
    ∧ length key = length (agreeing 4 a b)
    ∧ ∀ k j, agreeing 4 a b !! k = Some j →
        ∃ c, t !! j = Some c ∧ key !! k = Some c.
Proof.
  exact (sift_correct 4 [0; 0; 1; 1] [0; 1; 1; 0]
           (String.list_ascii_of_string "0111") eq_refl eq_refl eq_refl).
Defined.

(** The concrete scenario of the specification: the key is "01". *)
Example sift_scenario :
  sift 4 [0; 0; 1; 1] [0; 1; 1; 0] (String.list_ascii_of_string "0111")
  = Ok (String.list_ascii_of_string "01").
Proof. reflexivity. Qed.

(** The agreeing indices come in strictly ascending order. *)
Lemma agreeing_ascending (n : nat) (a b : list Z) (k1 k2 j1 j2 : nat) :
  agreeing n a b !! k1 = Some j1 → agreeing n a b !! k2 = Some j2 →
  (k1 < k2)%nat → (j1 < j2)%nat.
Proof.
  unfold agreeing. generalize 0%nat as s. revert k1 k2.
  induction n as [|n IH]; intros k1 k2 s H1 H2 Hlt; [done|].
  simpl in H1, H2. rewrite filter_cons in H1, H2.
  assert (Hge : ∀ k j, filter (λ i, a !! i = b !! i) (seq (S s) n) !! k = Some j
                 → (S s ≤ j)%nat).
  { intros k j Hk%list_elem_of_lookup_2.
    apply list_elem_of_filter in Hk as [_ Hk%elem_of_seq]. lia. }
  destruct (decide (a !! s = b !! s)).
  - destruct k2 as [|k2]; [lia|]. destruct k1 as [|k1]; simpl in *.
    + simplify_eq. apply Hge in H2. lia.
    + eapply IH; [done..|lia].
  - by eapply IH.
Qed.

(** C9: when the two bases agree at every position, the sifted key is the
    whole outcome string, in the same order. *)
Theorem sift_all_agree (N : nat) (senderBasis receiverBasis : list Z)
    (outcome : str) :
  length senderBasis = N → length receiverBasis = N → length outcome = N →
  (∀ i, (i < N)%nat → senderBasis !! i = receiverBasis !! i) →
  sift N senderBasis receiverBasis outcome = Ok outcome.
Proof.
  intros Ha Hb Ht Hall. rewrite sift_in_range; [|done..|].
  - f_equal. unfold agreeing. rewrite filter_all.
    + rewrite <- Ht. apply omap_lookup_seq.
    + apply Forall_forall. intros i Hi%elem_of_seq. apply Hall. lia.
  - intros j [Hj _]%elem_of_agreeing. lia.
Qed.

Lemma sift_all_agree_witness :
  sift 3 [1; 0; 1] [1; 0; 1] (String.list_ascii_of_string "110")
  = Ok (String.list_ascii_of_string "110").
Proof.
  apply (sift_all_agree 3 [1; 0; 1] [1; 0; 1] (String.list_ascii_of_string "110"));
    [reflexivity..|].
  intros i Hi. reflexivity.
Defined.

Lemma for_each_app {St : Type} (idx1 idx2 : list nat)
    (body : nat → St → result St) (st : St) :
  for_each (idx1 ++ idx2) body st
  = (st' ← for_each idx1 body st; for_each idx2 body st').
Proof.
  revert st. induction idx1 as [|j idx1 IH]; intros st; simpl.
  - done.
  - destruct (body j st) as [st1|e]; simpl; [apply IH | done].
Qed.

(** Past the end of a basis array the loop body fails whatever the key. *)
Lemma sift_step_short_basis (a b : list Z) (t : str) (i : nat) (key : str) :
  (length a ≤ i)%nat ∨ (length b ≤ i)%nat →
  sift_step a b t i key = Raise IndexError.
Proof.
  intros Hshort. unfold sift_step.
  destruct (a !! i) as [va|] eqn:Ha.
  - rewrite (getitem_Some _ _ _ Ha). simpl.
    destruct Hshort as [Hshort|Hshort].
    + apply lookup_ge_None_2 in Hshort. congruence.
    + by rewrite (getitem_None b i Hshort).
  - unfold getitem. by rewrite Ha.
Qed.

(** Over in-range indices the loop returns a key or raises IndexError. *)
Lemma sift_loop_cases (a b : list Z) (t : str) (idx : list nat) (key : str) :
  (∀ i, i ∈ idx → (i < length a)%nat ∧ (i < length b)%nat) →
  (∃ key', for_each idx (sift_step a b t) key = Ok key')
  ∨ for_each idx (sift_step a b t) key = Raise IndexError.
Proof.
  intros Hrange.
  destruct (decide (Exists (λ i, a !! i = b !! i ∧ (length t ≤ i)%nat) idx))
    as [Hex|Hall].
  - right. apply sift_loop_overrun; [done|].
    apply Exists_exists in Hex as (i & Hi & Hagree & Hover). by exists i.
  - left. eexists. apply sift_loop; [done|].
    intros i Hi Hagree. apply not_Exists_Forall in Hall; [|apply _].
    rewrite Forall_forall in Hall. specialize (Hall i Hi). simpl in Hall.
    destruct (decide (i < length t)%nat); [done|].
    exfalso. apply Hall. split; [done|lia].
Qed.

Lemma sift_short_basis (N : nat) (a b : list Z) (t : str) :
  (length a < N)%nat ∨ (length b < N)%nat →
  sift N a b t = Raise IndexError.
Proof.
  intros Hshort. unfold sift, for_range.
  set (m := (length a `min` length b)%nat).
  assert (Hm : (m < N)%nat) by lia.
  replace N with (m + S (N - S m))%nat by lia.
  rewrite seq_app, for_each_app. simpl.
  assert (Hrange : ∀ i, i ∈ seq 0 m → (i < length a)%nat ∧ (i < length b)%nat)
    by (intros i Hi%elem_of_seq; lia).
  destruct (sift_loop_cases a b t (seq 0 m) [] Hrange) as [[key' ->]| ->];
    [|done].
  simpl. rewrite sift_step_short_basis; [done|lia].
Qed.

(** C5, amended: the loop has no length check.  With num_qubits = N it
    raises IndexError when a basis array is shorter than N or when the bases
    agree at an index below N that the outcome string does not have; in every
    other case, so whenever the outcome is longer than bases of length N, it
    returns the outcome bits at the agreeing indices. *)
Theorem sift_length_mismatch (N : nat) (senderBasis receiverBasis : list Z)
    (outcome : str) :
  ((length senderBasis < N)%nat ∨ (length receiverBasis < N)%nat →
     sift N senderBasis receiverBasis outcome = Raise IndexError)
  ∧ ((N ≤ length senderBasis)%nat → (N ≤ length receiverBasis)%nat →
     (∃ j, j ∈ agreeing N senderBasis receiverBasis ∧ (length outcome ≤ j)%nat) →
     sift N senderBasis receiverBasis outcome = Raise IndexError)
  ∧ ((N ≤ length senderBasis)%nat → (N ≤ length receiverBasis)%nat →
     (∀ j, j ∈ agreeing N senderBasis receiverBasis → (j < length outcome)%nat) →
     ∃ key, sift N senderBasis receiverBasis outcome = Ok key
       ∧ length key = length (agreeing N senderBasis receiverBasis)
       ∧ ∀ k j, agreeing N senderBasis receiverBasis !! k = Some j →
           ∃ c, outcome !! j = Some c ∧ key !! k = Some c)
  ∧ (length senderBasis = N → length receiverBasis = N →
     (N < length outcome)%nat →
     ∃ key, sift N senderBasis receiverBasis outcome = Ok key).
Proof.
  assert (Hok : (N ≤ length senderBasis)%nat → (N ≤ length receiverBasis)%nat →
     (∀ j, j ∈ agreeing N senderBasis receiverBasis → (j < length outcome)%nat) →
     sift N senderBasis receiverBasis outcome
     = Ok (omap (λ i, outcome !! i) (agreeing N senderBasis receiverBasis))).
  { intros Ha Hb Ht. unfold sift, for_range. rewrite sift_loop; [done|..].
    - intros i Hi%elem_of_seq. lia.
    - intros i Hi%elem_of_seq Hagree. apply Ht, elem_of_agreeing.
      split; [lia|done]. }
  split_and!.
  - apply sift_short_basis.
  - intros Ha Hb (j & [Hj Hagree]%elem_of_agreeing & Hover).
    unfold sift, for_range. apply sift_loop_overrun.
    + intros i Hi%elem_of_seq. lia.
    + exists j. split_and!; [|done..]. apply elem_of_seq. lia.
  - intros Ha Hb Ht. eexists. split; [by apply Hok|]. split.
    + by apply picked_length.
    + intros k j Hk.
      destruct (lookup_lt_is_Some_2 outcome j) as [c Hc].
      { apply Ht. by eapply list_elem_of_lookup_2. }
      exists c. split; [done|]. rewrite <- Hc. by apply picked_lookup.
  - intros Ha Hb Ht. eexists. apply Hok; [lia..|].
    intros j [Hj _]%elem_of_agreeing. lia.
Qed.

(** Bases of length 3 and an outcome of length 4: a key comes back.  An
    outcome of length 2 that misses the agreeing index 2, or a basis of
    length 2: IndexError. *)
Lemma sift_length_mismatch_witness :
  (∃ key, sift 3 [0; 1; 1] [0; 0; 1] (String.list_ascii_of_string "0110")
          = Ok key)
  ∧ sift 3 [0; 1; 1] [0; 0; 1] (String.list_ascii_of_string "01")
    = Raise IndexError
  ∧ sift 3 [0; 1] [0; 0; 1] (String.list_ascii_of_string "011")
    = Raise IndexError.
Proof.
  split_and!.
  - apply (proj2 (proj2 (proj2
      (sift_length_mismatch 3 [0; 1; 1] [0; 0; 1]
         (String.list_ascii_of_string "0110"))))).
    + reflexivity.
    + reflexivity.
    + simpl. lia.
  - apply (proj1 (proj2
      (sift_length_mismatch 3 [0; 1; 1] [0; 0; 1]
         (String.list_ascii_of_string "01")))).
    + simpl. lia.
    + simpl. lia.
    + exists 2%nat. split; [|simpl; lia].
      apply (bool_decide_unpack _). vm_compute. exact I.
  - apply (proj1
      (sift_length_mismatch 3 [0; 1] [0; 0; 1]
         (String.list_ascii_of_string "011"))).
    left. simpl. lia.
Defined.

(** C5 as stated fails: on bases of length 3 and an outcome of length 4
    the loop returns the key "01" and raises nothing. *)
Lemma sift_length_mismatch_counterexample :
  ¬ (∀ (N : nat) (senderBasis receiverBasis : list Z) (outcome : str),
       length senderBasis = N → length receiverBasis = N →
       length outcome ≠ N →
       ∃ e, sift N senderBasis receiverBasis outcome = Raise e).
Proof.
  intros Hclaim.
  destruct (Hclaim 3%nat [0; 1; 1] [0; 0; 1]
              (String.list_ascii_of_string "0110")) as [e He];
    [reflexivity | reflexivity | simpl; lia | discriminate He].
Qed.

Example sift_longer_outcome :
  sift 3 [0; 1; 1] [0; 0; 1] (String.list_ascii_of_string "0110")
  = Ok (String.list_ascii_of_string "01").
Proof. reflexivity. Qed.

Example sift_shorter_outcome :
  sift 3 [0; 1; 1] [0; 0; 1] (String.list_ascii_of_string "01")
  = Raise IndexError.
Proof. reflexivity. Qed.

(** ** Key statistics *)

Lemma count_cons (c d : ascii) (s : str) :
  count c (d :: s) = ((if decide (d = c) then 1 else 0) + count c s)%nat.
Proof.
  unfold count. rewrite filter_cons. by destruct (decide (d = c)).
Qed.

Lemma count_bits (key : str) :
  is_bitstring key →
  (count "0"%char key + count "1"%char key)%nat = length key.
Proof.
  induction 1 as [|c key Hc _ IH]; [done|].
  rewrite !count_cons. simpl length.
  destruct Hc as [-> | ->]; simpl; lia.
Qed.

(** The sifted key of a bit string is a bit string. *)
Lemma sift_loop_bitstring (a b : list Z) (t : str) (idx : list nat)
    (key key' : str) :
  is_bitstring t → is_bitstring key →
  for_each idx (sift_step a b t) key = Ok key' → is_bitstring key'.
Proof.
  intros Ht. revert key. induction idx as [|i idx IH]; intros key Hkey Hrun.
  - simpl in Hrun. by simplify_eq.
  - simpl in Hrun.
    destruct (sift_step a b t i key) as [key1|e] eqn:Hstep; [|done].
    simpl in Hrun. apply (IH key1); [|done].
    unfold sift_step, getitem in Hstep.
    destruct (a !! i) as [va|]; [|done]. destruct (b !! i) as [vb|]; [|done].
    simpl in Hstep. destruct (decide (va = vb)); [|by simplify_eq].
    destruct (t !! i) as [c|] eqn:Hc; [|done]. simpl in Hstep. simplify_eq.
    apply Forall_app. split; [done|]. apply Forall_singleton.
    unfold is_bitstring in Ht. rewrite Forall_lookup in Ht. by eapply Ht.
Qed.

Lemma sift_bitstring (N : nat) (a b : list Z) (t key : str) :
  is_bitstring t → sift N a b t = Ok key → is_bitstring key.
Proof.
  intros Ht Hrun. eapply sift_loop_bitstring; [done| |done]. constructor.
Qed.

Lemma most_frequent_bitstring (shot : QuantumCircuit → nat → bool)
    (circ : QuantumCircuit) :
  is_bitstring (most_frequent shot circ).
Proof.
  unfold most_frequent, is_bitstring. apply Forall_fmap, Forall_forall.
  intros k _. simpl. destruct (shot circ _); [by right | by left].
Qed.

(** C8: for every sifted key, a string of 0 and 1 characters, the numbers
    of zeros and of ones add up to the length; the three numbers are 0 for the
    empty key. *)
Theorem summarize_counts (key : str) :
  is_bitstring key →
  (zeroCount (summarize key) + oneCount (summarize key))%nat
    = key_length (summarize key)
  ∧ summarize [] = {| key_length := 0; zeroCount := 0; oneCount := 0 |}.
Proof.
  intros Hkey. split; [|reflexivity]. simpl. by apply count_bits.
Qed.

Lemma summarize_counts_witness :
  is_bitstring (String.list_ascii_of_string "01")
  ∧ (zeroCount (summarize (String.list_ascii_of_string "01"))
     + oneCount (summarize (String.list_ascii_of_string "01")))%nat
    = key_length (summarize (String.list_ascii_of_string "01"))
  ∧ summarize [] = {| key_length := 0; zeroCount := 0; oneCount := 0 |}.
Proof.
  assert (Hbits : is_bitstring (String.list_ascii_of_string "01")).
  { apply (bool_decide_unpack _). vm_compute. exact I. }
  split; [exact Hbits|].
  exact (summarize_counts (String.list_ascii_of_string "01") Hbits).
Defined.

(** The scenario of the specification: length 2, one zero, one one. *)
Example summarize_scenario :
  summarize (String.list_ascii_of_string "01")
  = {| key_length := 2; zeroCount := 1; oneCount := 1 |}.
Proof. reflexivity. Qed.

(** The report printed by cell 7 is consistent whatever the shot returns. *)
Lemma cell_7_report (shot : QuantumCircuit → nat → bool) (num_qubits : nat)
    (bits : Bitstrings) (key : str) (report : KeyReport) :
  cell_7 shot num_qubits bits = Ok (key, report) →
  report = summarize key
  ∧ (zeroCount report + oneCount report)%nat = key_length report.
Proof.
  unfold cell_7. intros Hrun.
  destruct (make_bb84_circ _ _ _) as [circ|e]; [|done]. simpl in Hrun.
  destruct (sift _ _ _ _) as [key1|e] eqn:Hsift; [|done]. simpl in Hrun.
  simplify_eq. split; [done|].
  simpl. apply count_bits.
  eapply sift_bitstring; [|done]. apply most_frequent_bitstring.
Qed.

(** ** Building the circuit *)

Lemma append_nil (circ : QuantumCircuit) : append circ [] = circ.
Proof. destruct circ. unfold append. simpl. by rewrite app_nil_r. Qed.

Lemma append_append (circ : QuantumCircuit) (ops1 ops2 : list Instruction) :
  append (append circ ops1) ops2 = append circ (ops1 ++ ops2).
Proof. unfold append. simpl. by rewrite app_assoc. Qed.

Lemma x_in_range (circ : QuantumCircuit) (q : nat) :
  (q < num_qubits circ)%nat → x circ q = Ok (append circ [XGate q]).
Proof. intros Hq. unfold x. by rewrite decide_True. Qed.

Lemma h_in_range (circ : QuantumCircuit) (q : nat) :
  (q < num_qubits circ)%nat → h circ q = Ok (append circ [HGate q]).
Proof. intros Hq. unfold h. by rewrite decide_True. Qed.

(** One turn of the sender's loop, whatever integers the arrays hold. *)
Lemma sender_step_ops (enc_state enc_basis : list Z) (index : nat)
    (circ : QuantumCircuit) (s b : Z) :
  enc_state !! index = Some s → enc_basis !! index = Some b →
  (index < num_qubits circ)%nat →
  sender_step enc_state enc_basis index circ
  = Ok (append circ (encodingOps index s b)).
Proof.
  intros Hs Hb Hq. unfold sender_step, encodingOps.
  rewrite (getitem_Some _ _ _ Hs). simpl.
  destruct (decide (s = 1)).
  - rewrite x_in_range by done. simpl. rewrite (getitem_Some _ _ _ Hb). simpl.
    destruct (decide (b = 1)).
    + rewrite h_in_range by done. by rewrite append_append.
    + by rewrite ?app_nil_r.
  - simpl. rewrite (getitem_Some _ _ _ Hb). simpl.
    destruct (decide (b = 1)).
    + by rewrite h_in_range.
    + by rewrite append_nil.
Qed.

(** One turn of the receiver's loop. *)
Lemma receiver_step_ops (meas_basis : list Z) (index : nat)
    (circ : QuantumCircuit) (b : Z) :
  meas_basis !! index = Some b → (index < num_qubits circ)%nat →
  receiver_step meas_basis index circ
  = Ok (append circ (measurementOps index b)).
Proof.
  intros Hb Hq. unfold receiver_step, measurementOps.
  rewrite (getitem_Some _ _ _ Hb). simpl.
  destruct (decide (b = 1)).
  - by rewrite h_in_range.
  - by rewrite append_nil.
Qed.

(** C2: on bits, the sender's step puts on the qubit nothing for (0,0), one
    bit-flip for (1,0), one Hadamard for (0,1), and a bit-flip followed by a
    Hadamard for (1,1). *)
Theorem encoding_table (enc_state enc_basis : list Z) (index : nat)
    (circ : QuantumCircuit) :
  (index < num_qubits circ)%nat →
  (enc_state !! index = Some 0 → enc_basis !! index = Some 0 →
     sender_step enc_state enc_basis index circ = Ok circ)
  ∧ (enc_state !! index = Some 1 → enc_basis !! index = Some 0 →
     sender_step enc_state enc_basis index circ
     = Ok (append circ [XGate index]))
  ∧ (enc_state !! index = Some 0 → enc_basis !! index = Some 1 →
     sender_step enc_state enc_basis index circ
     = Ok (append circ [HGate index]))
  ∧ (enc_state !! index = Some 1 → enc_basis !! index = Some 1 →
     sender_step enc_state enc_basis index circ
     = Ok (append circ [XGate index; HGate index])).
Proof.
  intros Hq. split_and!; intros Hs Hb;
    rewrite (sender_step_ops _ _ _ _ _ _ Hs Hb Hq); unfold encodingOps; simpl;
    by rewrite ?append_nil.
Qed.

Lemma encoding_table_witness :
  let state := [0; 1; 0; 1] in
  let basis := [0; 0; 1; 1] in
  let circ := QuantumCircuit_init 4 in
  sender_step state basis 0 circ = Ok circ
  ∧ sender_step state basis 1 circ = Ok (append circ [XGate 1])
  ∧ sender_step state basis 2 circ = Ok (append circ [HGate 2])
  ∧ sender_step state basis 3 circ = Ok (append circ [XGate 3; HGate 3]).
Proof.
  intros state basis circ. split_and!.
  - apply (proj1 (encoding_table state basis 0 circ ltac:(simpl; lia)));
      reflexivity.
  - apply (proj1 (proj2 (encoding_table state basis 1 circ ltac:(simpl; lia))));
      reflexivity.
  - apply (proj1 (proj2 (proj2
      (encoding_table state basis 2 circ ltac:(simpl; lia))))); reflexivity.
  - apply (proj2 (proj2 (proj2
      (encoding_table state basis 3 circ ltac:(simpl; lia))))); reflexivity.
Defined.

(** C7, amended: an array element outside {0,1} raises nothing; the steps
    treat every value other than 1 as 0. *)
Theorem non_bit_treated_as_zero (enc_state enc_basis meas_basis : list Z)
    (index : nat) (circ : QuantumCircuit) (s b m : Z) :
  enc_state !! index = Some s → enc_basis !! index = Some b →
  meas_basis !! index = Some m → (index < num_qubits circ)%nat →
  (¬ is_bit s →
     sender_step enc_state enc_basis index circ
     = Ok (append circ (encodingOps index 0 b)))
  ∧ (¬ is_bit b →
     sender_step enc_state enc_basis index circ
     = Ok (append circ (encodingOps index s 0)))
  ∧ (¬ is_bit m → receiver_step meas_basis index circ = Ok circ).
Proof.
  intros Hs Hb Hm Hq. unfold is_bit. split_and!; intros Hbit.
  - rewrite (sender_step_ops _ _ _ _ _ _ Hs Hb Hq). unfold encodingOps.
    rewrite (decide_False (P := s = 1)) by lia. done.
  - rewrite (sender_step_ops _ _ _ _ _ _ Hs Hb Hq). unfold encodingOps.
    rewrite (decide_False (P := b = 1)) by lia. done.
  - rewrite (receiver_step_ops _ _ _ _ Hm Hq). unfold measurementOps.
    rewrite (decide_False (P := m = 1)) by lia. by rewrite append_nil.
Qed.

Lemma non_bit_treated_as_zero_witness :
  let circ := QuantumCircuit_init 1 in
  sender_step [2] [1] 0 circ = Ok (append circ [HGate 0])
  ∧ sender_step [1] [-1] 0 circ = Ok (append circ [XGate 0])
  ∧ receiver_step [7] 0 circ = Ok circ.
Proof.
  intros circ. split_and!.
  - apply (proj1 (non_bit_treated_as_zero [2] [1] [7] 0 circ 2 1 7
      eq_refl eq_refl eq_refl ltac:(simpl; lia))).
    unfold is_bit. lia.
  - apply (proj1 (proj2 (non_bit_treated_as_zero [1] [-1] [7] 0 circ 1 (-1) 7
      eq_refl eq_refl eq_refl ltac:(simpl; lia)))).
    unfold is_bit. lia.
  - apply (proj2 (proj2 (non_bit_treated_as_zero [2] [1] [7] 0 circ 2 1 7
      eq_refl eq_refl eq_refl ltac:(simpl; lia)))).
    unfold is_bit. lia.
Defined.

(** C7 as stated fails: a state value 2 and a basis value 7 give an
    operation sequence (the empty one), not an error. *)
Lemma non_bit_counterexample :
  ¬ (∀ (enc_state enc_basis meas_basis : list Z) (index : nat)
       (circ : QuantumCircuit) (s b m : Z),
       enc_state !! index = Some s → enc_basis !! index = Some b →
       meas_basis !! index = Some m → (index < num_qubits circ)%nat →
       ¬ is_bit s ∨ ¬ is_bit b ∨ ¬ is_bit m →
       (∃ e, sender_step enc_state enc_basis index circ = Raise e)
       ∨ (∃ e, receiver_step meas_basis index circ = Raise e)).
Proof.
  intros Hclaim.
  destruct (Hclaim [2] [7] [7] 0%nat (QuantumCircuit_init 1) 2 7 7)
    as [[e He]|[e He]];
    [reflexivity | reflexivity | reflexivity | simpl; lia
    | left; unfold is_bit; lia | discriminate He | discriminate He].
Qed.

Example non_bit_state_accepted :
  sender_step [2] [7] 0 (QuantumCircuit_init 1) = Ok (QuantumCircuit_init 1).
Proof. reflexivity. Qed.

Lemma preparation_seq (enc_state enc_basis : list Z) (N : nat) :
  length enc_state = N → length enc_basis = N →
  preparation enc_state enc_basis
  = concat (encoding_at enc_state enc_basis <$> seq 0 N).
Proof.
  intros Hs Hb. unfold preparation. f_equal. apply list_eq. intros i.
  rewrite list_lookup_imap, list_lookup_fmap.
  destruct (decide (i < N)%nat) as [Hi|Hi].
  - rewrite lookup_seq_lt by done. simpl.
    destruct (lookup_lt_is_Some_2 enc_state i) as [s Hsi]; [lia|].
    destruct (lookup_lt_is_Some_2 enc_basis i) as [b Hbi]; [lia|].
    rewrite (proj2 (lookup_zip_Some enc_state enc_basis i s b)) by done.
    unfold encoding_at. by rewrite Hsi, Hbi.
  - rewrite lookup_seq_ge by lia.
    rewrite lookup_ge_None_2; [done|]. rewrite length_zip. lia.
Qed.

Lemma rotation_seq (meas_basis : list Z) :
  rotation meas_basis
  = concat (rotation_at meas_basis <$> seq 0 (length meas_basis)).
Proof.
  unfold rotation. f_equal. apply list_eq. intros i.
  rewrite list_lookup_imap, list_lookup_fmap.
  destruct (decide (i < length meas_basis)%nat) as [Hi|Hi].
  - rewrite lookup_seq_lt by done. simpl.
    destruct (lookup_lt_is_Some_2 meas_basis i Hi) as [b Hb].
    unfold rotation_at. by rewrite Hb.
  - rewrite lookup_seq_ge by lia. by rewrite lookup_ge_None_2 by lia.
Qed.

Section Loops.
Context (enc_state enc_basis meas_basis : list Z).

Lemma sender_loop (idx : list nat) (circ : QuantumCircuit) :
  (∀ i, i ∈ idx → (i < length enc_state)%nat ∧ (i < length enc_basis)%nat
                  ∧ (i < num_qubits circ)%nat) →
  for_each idx (sender_step enc_state enc_basis) circ
  = Ok (append circ (concat (encoding_at enc_state enc_basis <$> idx))).
Proof.
  revert circ. induction idx as [|i idx IH]; intros circ Hrange.
  - simpl. by rewrite append_nil.
  - destruct (Hrange i) as (Hs & Hb & Hq); [left|].
    destruct (lookup_lt_is_Some_2 _ _ Hs) as [s Hsi].
    destruct (lookup_lt_is_Some_2 _ _ Hb) as [b Hbi].
    cbn [for_each]. rewrite (sender_step_ops _ _ _ _ s b) by done.
    simpl. rewrite IH.
    + rewrite append_append. unfold encoding_at at 2. by rewrite Hsi, Hbi.
    + intros j Hj. destruct (Hrange j) as (? & ? & ?); [by right|done].
Qed.

Lemma receiver_loop (idx : list nat) (circ : QuantumCircuit) :
  (∀ i, i ∈ idx → (i < length meas_basis)%nat ∧ (i < num_qubits circ)%nat) →
  for_each idx (receiver_step meas_basis) circ
  = Ok (append circ (concat (rotation_at meas_basis <$> idx))).
Proof.
  revert circ. induction idx as [|i idx IH]; intros circ Hrange.
  - simpl. by rewrite append_nil.
  - destruct (Hrange i) as (Hb & Hq); [left|].
    destruct (lookup_lt_is_Some_2 _ _ Hb) as [b Hbi].
    cbn [for_each]. rewrite (receiver_step_ops _ _ _ b) by done.
    simpl. rewrite IH.
    + rewrite append_append. unfold rotation_at at 2. by rewrite Hbi.
    + intros j Hj. destruct (Hrange j) as (? & ?); [by right|done].
Qed.

End Loops.

(** The circuit built from three arrays of one length. *)
Lemma make_bb84_circ_data (enc_state enc_basis meas_basis : list Z) (N : nat) :
  length enc_state = N → length enc_basis = N → length meas_basis = N →
  make_bb84_circ enc_state enc_basis meas_basis
  = Ok {| num_qubits := N;
          num_clbits := N;
          data := preparation enc_state enc_basis ++ [Barrier]
                  ++ rotation meas_basis ++ [Barrier]
                  ++ [Measure (seq 0 N) (seq 0 N)] |}.
Proof.
  intros Hs Hb Hm. unfold make_bb84_circ, for_range.
  rewrite sender_loop.
  2:{ intros i Hi%elem_of_seq. simpl. lia. }
  simpl. rewrite receiver_loop.
  2:{ intros i Hi%elem_of_seq. simpl. lia. }
  simpl. unfold measure_all. simpl. f_equal.
  rewrite (preparation_seq _ _ N), rotation_seq by done.
  rewrite Hs, Hb, Hm. f_equal. by rewrite <- !app_assoc.
Qed.

(** C3: the circuit built from three arrays of one length N is, in order,
    the encoding operations of qubits 0 to N-1, a barrier, for each qubit a
    Hadamard exactly when its measurement basis is 1, a second barrier, and
    one measurement of all N qubits. *)
Theorem circuit_layout (senderState senderBasis receiverBasis : list Z)
    (N : nat) :
  length senderState = N → length senderBasis = N →
  length receiverBasis = N →
  ∃ circ, make_bb84_circ senderState senderBasis receiverBasis = Ok circ
    ∧ data circ
      = concat (imap (λ i sb, encodingOps i sb.1 sb.2)
                     (zip senderState senderBasis))
        ++ [Barrier]
        ++ concat (imap (λ i b, if decide (b = 1) then [HGate i] else [])
                        receiverBasis)
        ++ [Barrier]
        ++ [Measure (seq 0 N) (seq 0 N)].
Proof.
  intros Hs Hb Hm. eexists. split; [by apply make_bb84_circ_data|]. done.
Qed.

Lemma circuit_layout_witness :
  ∃ circ, make_bb84_circ [0; 1; 1; 0] [0; 0; 1; 1] [0; 1; 1; 0] = Ok circ
    ∧ data circ
      = concat (imap (λ i sb, encodingOps i sb.1 sb.2)
                     (zip [0; 1; 1; 0] [0; 0; 1; 1]))
        ++ [Barrier]
        ++ concat (imap (λ i b, if decide (b = 1) then [HGate i] else [])
                        [0; 1; 1; 0])
        ++ [Barrier]
        ++ [Measure (seq 0 4) (seq 0 4)].
Proof.
  exact (circuit_layout [0; 1; 1; 0] [0; 0; 1; 1] [0; 1; 1; 0] 4
           eq_refl eq_refl eq_refl).
Defined.

(** The circuit of the scenario of the specification, instruction by
    instruction. *)
Example circuit_scenario :
  make_bb84_circ [0; 1; 1; 0] [0; 0; 1; 1] [0; 1; 1; 0]
  = Ok {| num_qubits := 4; num_clbits := 4;
          data := [XGate 1; XGate 2; HGate 2; HGate 3; Barrier;
                   HGate 1; HGate 2; Barrier;
                   Measure [0; 1; 2; 3]%nat [0; 1; 2; 3]%nat] |}.
Proof. reflexivity. Qed.

Lemma encoding_at_in_range (enc_state enc_basis : list Z) (N i : nat) :
  (i < N)%nat → Forall (gate_in_range N) (encoding_at enc_state enc_basis i).
Proof.
  intros Hi. unfold encoding_at, encodingOps.
  destruct (enc_state !! i) as [s|]; [|constructor].
  destruct (enc_basis !! i) as [b|]; [|constructor].
  destruct (decide (s = 1)), (decide (b = 1)); repeat constructor; done.
Qed.

Lemma rotation_at_in_range (meas_basis : list Z) (N i : nat) :
  (i < N)%nat → Forall (gate_in_range N) (rotation_at meas_basis i).
Proof.
  intros Hi. unfold rotation_at, measurementOps.
  destruct (meas_basis !! i) as [b|]; [|constructor].
  destruct (decide (b = 1)); repeat constructor; done.
Qed.

Lemma concat_seq_in_range (f : nat → list Instruction) (N : nat) :
  (∀ i, (i < N)%nat → Forall (gate_in_range N) (f i)) →
  Forall (gate_in_range N) (concat (f <$> seq 0 N)).
Proof.
  intros Hf. apply Forall_concat, Forall_fmap, Forall_forall.
  intros i Hi%elem_of_seq. apply Hf. lia.
Qed.

Lemma make_bb84_circ_in_range (enc_state enc_basis meas_basis : list Z)
    (N : nat) :
  length enc_state = N → length enc_basis = N → length meas_basis = N →
  ∃ circ, make_bb84_circ enc_state enc_basis meas_basis = Ok circ
    ∧ num_qubits circ = N
    ∧ Forall (gate_in_range N) (data circ).
Proof.
  intros Hs Hb Hm. eexists. split; [by apply make_bb84_circ_data|].
  split; [done|]. simpl.
  rewrite (preparation_seq _ _ N), rotation_seq, Hm by done.
  apply Forall_app_2.
  - apply concat_seq_in_range. intros i Hi. by apply encoding_at_in_range.
  - apply Forall_cons_2; [done|]. apply Forall_app_2.
    + apply concat_seq_in_range. intros i Hi. by apply rotation_at_in_range.
    + by repeat constructor.
Qed.

(** C10: on three arrays of one positive length N the construction raises
    nothing, the circuit has N qubits, and every gate sits on a qubit below
    N. *)
Theorem construction_total (enc_state enc_basis meas_basis : list Z)
    (N : nat) :
  (0 < N)%nat →
  length enc_state = N → length enc_basis = N → length meas_basis = N →
  ∃ circ, make_bb84_circ enc_state enc_basis meas_basis = Ok circ
    ∧ num_qubits circ = length enc_state
    ∧ Forall (gate_in_range (num_qubits circ)) (data circ).
Proof.
  intros _ Hs Hb Hm.
  destruct (make_bb84_circ_in_range enc_state enc_basis meas_basis N)
    as (circ & Hrun & Hn & Hdata); [done..|].
  exists circ. rewrite Hn, Hs. done.
Qed.

Lemma construction_total_witness :
  ∃ circ, make_bb84_circ [0; 1; 1] [1; 1; 0] [1; 0; 1] = Ok circ
    ∧ num_qubits circ = length [0; 1; 1]
    ∧ Forall (gate_in_range (num_qubits circ)) (data circ).
Proof.
  apply (construction_total [0; 1; 1] [1; 1; 0] [1; 0; 1] 3);
    [lia | reflexivity..].
Defined.

(** Without equal lengths the construction can raise: a longer measurement
    basis reaches a qubit the circuit does not have. *)
Example longer_meas_basis :
  make_bb84_circ [0] [0] [0; 1] = Raise CircuitError.
Proof. reflexivity. Qed.

Example longer_enc_basis :
  make_bb84_circ [0] [0; 1] [0] = Raise IndexError.
Proof. reflexivity. Qed.

(** ** Which qubit a character of the outcome string comes from *)

Lemma flip_inj (N q i : nat) :
  (q < N)%nat → (i < N)%nat → flip N q = flip N i ↔ q = i.
Proof. unfold flip. lia. Qed.

(** Reversing the wires moves the gates of qubit [i] to qubit [flip N i]. *)
Lemma wire_reverse (N nc i : nat) (ops : list Instruction) :
  Forall (gate_in_range N) ops → (i < N)%nat →
  omap (gate_on (flip N i)) (reverse_instruction N nc <$> ops)
  = omap (gate_on i) ops.
Proof.
  intros Hops Hi. induction Hops as [|inst ops Hinst _ IH]; [done|].
  rewrite fmap_cons. cbn [omap list_omap]. fold (omap (gate_on i) ops).
  fold (omap (gate_on (flip N i)) (reverse_instruction N nc <$> ops)).
  rewrite IH. destruct inst as [q|q| |qs cs]; simpl in *; try done.
  - destruct (decide (flip N q = flip N i)) as [Hf|Hf],
      (decide (q = i)) as [Hq|Hq]; try done;
      exfalso; rewrite flip_inj in Hf by done; done.
  - destruct (decide (flip N q = flip N i)) as [Hf|Hf],
      (decide (q = i)) as [Hq|Hq]; try done;
      exfalso; rewrite flip_inj in Hf by done; done.
Qed.

(** Of a run of per-qubit blocks only the block of qubit [i] touches it. *)
Lemma wire_blocks (f : nat → list Instruction) (i : nat) (idx : list nat) :
  (∀ j, j ≠ i → omap (gate_on i) (f j) = []) → NoDup idx →
  omap (gate_on i) (concat (f <$> idx))
  = if decide (i ∈ idx) then omap (gate_on i) (f i) else [].
Proof.
  intros Hother. induction 1 as [|j idx Hj Hnodup IH].
  - done.
  - rewrite fmap_cons, concat_cons, omap_app, IH.
    destruct (decide (j = i)) as [->|Hne].
    + rewrite (decide_False (P := i ∈ idx)) by done.
      rewrite (decide_True (P := i ∈ i :: idx)) by left.
      by rewrite app_nil_r.
    + rewrite Hother by done. simpl.
      destruct (decide (i ∈ idx)) as [Hin|Hin].
      * rewrite decide_True; [done | by right].
      * rewrite decide_False; [done|].
        intros [?|?]%elem_of_cons; [by subst | done].
Qed.

Lemma wire_encoding_at (enc_state enc_basis : list Z) (i j : nat) (s b : Z) :
  enc_state !! i = Some s → enc_basis !! i = Some b →
  omap (gate_on i) (encoding_at enc_state enc_basis j)
  = if decide (j = i) then encoding_gates s b else [].
Proof.
  intros Hs Hb. unfold encoding_at, encodingOps, encoding_gates.
  destruct (decide (j = i)) as [->|Hne].
  - rewrite Hs, Hb.
    destruct (decide (s = 1)), (decide (b = 1)); simpl;
      by rewrite ?decide_True.
  - destruct (enc_state !! j) as [s'|]; [|done].
    destruct (enc_basis !! j) as [b'|]; [|done].
    destruct (decide (s' = 1)), (decide (b' = 1)); simpl;
      by rewrite ?decide_False.
Qed.

Lemma wire_rotation_at (meas_basis : list Z) (i j : nat) (m : Z) :
  meas_basis !! i = Some m →
  omap (gate_on i) (rotation_at meas_basis j)
  = if decide (j = i) then measurement_gates m else [].
Proof.
  intros Hm. unfold rotation_at, measurementOps, measurement_gates.
  destruct (decide (j = i)) as [->|Hne].
  - rewrite Hm. destruct (decide (m = 1)); simpl; by rewrite ?decide_True.
  - destruct (meas_basis !! j) as [m'|]; [|done].
    destruct (decide (m' = 1)); simpl; by rewrite ?decide_False.
Qed.

(** The gates on qubit [i] of the built circuit: its encoding, then its
    basis rotation. *)
Lemma wire_make_bb84_circ (enc_state enc_basis meas_basis : list Z)
    (N i : nat) (circ : QuantumCircuit) (s b m : Z) :
  length enc_state = N → length enc_basis = N → length meas_basis = N →
  enc_state !! i = Some s → enc_basis !! i = Some b →
  meas_basis !! i = Some m →
  make_bb84_circ enc_state enc_basis meas_basis = Ok circ →
  wire circ i = encoding_gates s b ++ measurement_gates m.
Proof.
  intros Hls Hlb Hlm Hs Hb Hm Hrun.
  rewrite (make_bb84_circ_data _ _ _ N) in Hrun by done.
  injection Hrun as <-.
  assert (Hi : (i < N)%nat) by (apply lookup_lt_Some in Hs; lia).
  unfold wire. simpl.
  rewrite (preparation_seq _ _ N), rotation_seq, Hlm by done.
  change (Barrier :: ?l) with ([Barrier] ++ l).
  rewrite !omap_app. simpl (omap _ [_]). simpl (omap _ [_; _]).
  rewrite app_nil_r. simpl.
  rewrite !wire_blocks.
  - rewrite !decide_True by (apply elem_of_seq; lia).
    rewrite (wire_encoding_at _ _ i i s b), (wire_rotation_at _ i i m) by done.
    by rewrite !decide_True.
  - intros j Hj. rewrite (wire_rotation_at _ i j m) by done.
    by rewrite decide_False.
  - apply NoDup_seq.
  - intros j Hj. rewrite (wire_encoding_at _ _ i j s b) by done.
    by rewrite decide_False.
  - apply NoDup_seq.
Qed.

(** Gates and barriers store nothing in a classical bit. *)
Lemma reads_into_unitary (nq nc c : nat) (ops : list Instruction) :
  Forall (λ inst, ∀ qs cs, inst ≠ Measure qs cs) ops →
  concat (reads_into c <$> (reverse_instruction nq nc <$> ops)) = [].
Proof.
  induction 1 as [|inst ops Hinst _ IH]; [done|].
  rewrite !fmap_cons, concat_cons, IH.
  destruct inst as [q|q| |qs cs]; try done. by destruct (Hinst qs cs).
Qed.

Lemma blocks_unitary (f : nat → list Instruction) (idx : list nat) :
  (∀ j, Forall (λ inst, ∀ qs cs, inst ≠ Measure qs cs) (f j)) →
  Forall (λ inst, ∀ qs cs, inst ≠ Measure qs cs) (concat (f <$> idx)).
Proof.
  intros Hf. apply Forall_concat, Forall_fmap, Forall_forall.
  intros j _. apply Hf.
Qed.

Lemma encoding_at_unitary (enc_state enc_basis : list Z) (j : nat) :
  Forall (λ inst, ∀ qs cs, inst ≠ Measure qs cs)
         (encoding_at enc_state enc_basis j).
Proof.
  unfold encoding_at, encodingOps.
  destruct (enc_state !! j) as [s|]; [|constructor].
  destruct (enc_basis !! j) as [b|]; [|constructor].
  destruct (decide (s = 1)), (decide (b = 1)); repeat constructor; done.
Qed.

Lemma rotation_at_unitary (meas_basis : list Z) (j : nat) :
  Forall (λ inst, ∀ qs cs, inst ≠ Measure qs cs) (rotation_at meas_basis j).
Proof.
  unfold rotation_at, measurementOps.
  destruct (meas_basis !! j) as [b|]; [|constructor].
  destruct (decide (b = 1)); repeat constructor; done.
Qed.

(** After the flip, the measurement of all qubits still pairs each qubit
    with the classical bit of its own index. *)
Lemma reads_flipped (N i : nat) (l : list nat) :
  NoDup l → (∀ q, q ∈ l → (q < N)%nat) → (i < N)%nat →
  (filter (λ qc : nat * nat, qc.2 = flip N i)
          (zip (flip N <$> l) (flip N <$> l))).*1
  = if decide (i ∈ l) then [flip N i] else [].
Proof.
  intros Hnodup Hl Hi. induction Hnodup as [|q l Hq Hnodup IH]; [done|].
  assert (Hq' : (q < N)%nat) by (apply Hl; left).
  assert (IH' := IH (λ q' Hq'', Hl q' (list_elem_of_further _ _ _ Hq''))).
  clear IH. rewrite !fmap_cons. cbn [zip zip_with]. rewrite filter_cons.
  simpl. destruct (decide (flip N q = flip N i)) as [Hf|Hf].
  - apply flip_inj in Hf as ->; [|done..].
    rewrite fmap_cons, IH'. simpl.
    rewrite (decide_False (P := i ∈ l)) by done.
    by rewrite (decide_True (P := i ∈ i :: l)) by left.
  - rewrite IH'. assert (Hne : q ≠ i) by (intros ->; done).
    destruct (decide (i ∈ l)) as [Hin|Hin].
    + rewrite decide_True; [done | by right].
    + rewrite decide_False; [done|].
      intros [?|?]%elem_of_cons; by subst.
Qed.

Lemma measured_into_reversed (enc_state enc_basis meas_basis : list Z)
    (N i : nat) (circ : QuantumCircuit) :
  length enc_state = N → length enc_basis = N → length meas_basis = N →
  (i < N)%nat →
  make_bb84_circ enc_state enc_basis meas_basis = Ok circ →
  measured_into (reverse_bits circ) (flip N i) = [flip N i].
Proof.
  intros Hls Hlb Hlm Hi Hrun.
  rewrite (make_bb84_circ_data _ _ _ N) in Hrun by done.
  injection Hrun as <-. unfold measured_into, reverse_bits. simpl.
  rewrite (preparation_seq _ _ N), rotation_seq, Hlm by done.
  set (prep := concat (encoding_at enc_state enc_basis <$> seq 0 N)).
  set (rot := concat (rotation_at meas_basis <$> seq 0 N)).
  change (prep ++ Barrier :: rot ++ [Barrier; Measure (seq 0 N) (seq 0 N)])
    with (prep ++ [Barrier] ++ rot ++ [Barrier] ++ [Measure (seq 0 N) (seq 0 N)]).
  rewrite !fmap_app, !concat_app.
  rewrite (reads_into_unitary N N _ prep)
    by apply blocks_unitary, encoding_at_unitary.
  rewrite (reads_into_unitary N N _ rot)
    by apply blocks_unitary, rotation_at_unitary.
  simpl. rewrite app_nil_r. rewrite reads_flipped.
  - rewrite decide_True; [done|]. apply elem_of_seq. lia.
  - apply NoDup_seq.
  - intros q Hq%elem_of_seq. lia.
  - done.
Qed.

Lemma reverse_bits_wire (circ : QuantumCircuit) (i : nat) :
  Forall (gate_in_range (num_qubits circ)) (data circ) →
  (i < num_qubits circ)%nat →
  wire (reverse_bits circ) (flip (num_qubits circ) i) = wire circ i.
Proof. intros Hdata Hi. unfold wire, reverse_bits. simpl. by apply wire_reverse. Qed.

Lemma most_frequent_lookup (shot : QuantumCircuit → nat → bool)
    (circ : QuantumCircuit) (i : nat) :
  (i < num_clbits circ)%nat →
  most_frequent shot circ !! i
  = Some (bit_char (shot circ (flip (num_clbits circ) i))).
Proof.
  intros Hi. unfold most_frequent.
  by rewrite list_lookup_fmap, lookup_seq_lt.
Qed.

(** C4: character i of the outcome string the sifter reads is the
    measurement of the qubit that was prepared from the i-th state and basis
    bits of the sender and rotated by the i-th basis bit of the receiver; the
    sifter compares those same two basis bits when it decides about it. *)
Theorem outcome_indexed_by_qubit (shot : QuantumCircuit → nat → bool)
    (alice_state alice_basis bob_basis : list Z) (N i : nat)
    (bb84_circ : QuantumCircuit) (s a b : Z) (key : str) :
  length alice_state = N → length alice_basis = N → length bob_basis = N →
  alice_state !! i = Some s → alice_basis !! i = Some a →
  bob_basis !! i = Some b →
  make_bb84_circ alice_state alice_basis bob_basis = Ok bb84_circ →
  let executed := reverse_bits bb84_circ in
  let temp_key := most_frequent shot executed in
  let outcome_i := bit_char (shot executed (flip N i)) in
  length temp_key = N
  ∧ temp_key !! i = Some outcome_i
  ∧ measured_into executed (flip N i) = [flip N i]
  ∧ wire executed (flip N i) = wire bb84_circ i
  ∧ wire bb84_circ i = encoding_gates s a ++ measurement_gates b
  ∧ sift_step alice_basis bob_basis temp_key i key
    = Ok (if decide (a = b) then key ++ [outcome_i] else key).
Proof.
  intros Hls Hla Hlb Hs Ha Hb Hrun executed temp_key outcome_i.
  assert (Hi : (i < N)%nat) by (apply lookup_lt_Some in Hs; lia).
  destruct (make_bb84_circ_in_range alice_state alice_basis bob_basis N)
    as (circ & Hrun' & Hnq & Hdata); [done..|].
  assert (circ = bb84_circ) as -> by congruence. clear Hrun'.
  assert (Hnc : num_clbits executed = N).
  { rewrite (make_bb84_circ_data _ _ _ N) in Hrun by done.
    injection Hrun as Hcirc. unfold executed. by rewrite <- Hcirc. }
  assert (Hkey : temp_key !! i = Some outcome_i).
  { unfold temp_key, outcome_i. rewrite most_frequent_lookup; rewrite Hnc; done. }
  split_and!.
  - unfold temp_key, most_frequent. by rewrite length_fmap, length_seq.
  - done.
  - by apply (measured_into_reversed alice_state alice_basis bob_basis).
  - unfold executed. rewrite <- Hnq. apply reverse_bits_wire; [|lia].
    by rewrite Hnq.
  - by apply (wire_make_bb84_circ alice_state alice_basis bob_basis N).
  - unfold sift_step.
    rewrite (getitem_Some _ _ _ Ha), (getitem_Some _ _ _ Hb). simpl.
    destruct (decide (a = b)); [|done].
    by rewrite (getitem_Some _ _ _ Hkey).
Qed.

Lemma outcome_indexed_by_qubit_witness :
  let shot := λ (_ : QuantumCircuit) (c : nat), Nat.even c in
  let circ := {| num_qubits := 4; num_clbits := 4;
                 data := [XGate 1; XGate 2; HGate 2; HGate 3; Barrier;
                          HGate 1; HGate 2; Barrier;
                          Measure [0; 1; 2; 3]%nat [0; 1; 2; 3]%nat] |} in
  let executed := reverse_bits circ in
  let temp_key := most_frequent shot executed in
  let outcome_2 := bit_char (shot executed (flip 4 2)) in
  length temp_key = 4%nat
  ∧ temp_key !! 2%nat = Some outcome_2
  ∧ measured_into executed (flip 4 2) = [flip 4 2]
  ∧ wire executed (flip 4 2) = wire circ 2
  ∧ wire circ 2 = encoding_gates 1 1 ++ measurement_gates 1
  ∧ sift_step [0; 0; 1; 1] [0; 1; 1; 0] temp_key 2 []
    = Ok (if decide (1 = 1) then [] ++ [outcome_2] else []).
Proof.
  intros shot circ.
  exact (outcome_indexed_by_qubit shot [0; 1; 1; 0] [0; 0; 1; 1] [0; 1; 1; 0]
           4 2 circ 1 1 1 [] eq_refl eq_refl eq_refl eq_refl eq_refl eq_refl
           eq_refl).
Defined.

(** Without [reverse_bits] the string would come out mirrored: character i
    would be the measurement of qubit [flip N i]. *)
Example unreversed_is_mirrored :
  measured_into {| num_qubits := 4; num_clbits := 4;
                   data := [Measure [0; 1; 2; 3]%nat [0; 1; 2; 3]%nat] |}
                (flip 4 0)
  = [3%nat].
Proof. reflexivity. Qed.

(** ** Generating the bit arrays *)

Lemma draws_length (high : Z) (n : nat) (g : np_random.RandomState) :
  length (np_random.draws high n g).1 = n.
Proof.
  revert g. induction n as [|n IH]; intros g; [done|].
  simpl. specialize (IH {| np_random.entropy := np_random.entropy g;
                           np_random.cursor := S (np_random.cursor g) |}).
  destruct (np_random.draws high n _) as [vs g2]. simpl in *. by rewrite IH.
Qed.

Lemma draws_bits (n : nat) (g : np_random.RandomState) :
  Forall is_bit (np_random.draws 2 n g).1.
Proof.
  revert g. induction n as [|n IH]; intros g; [constructor|].
  simpl. specialize (IH {| np_random.entropy := np_random.entropy g;
                           np_random.cursor := S (np_random.cursor g) |}).
  destruct (np_random.draws 2 n _) as [vs g2]. simpl in *.
  constructor; [|done]. unfold is_bit.
  pose proof (Z.mod_pos_bound (np_random.entropy g (np_random.cursor g)) 2).
  lia.
Qed.

(** For a length that is not negative: that many elements, each 0 or 1. *)
Lemma random_bits_length (num_qubits : Z) (g : np_random.RandomState) :
  0 ≤ num_qubits →
  ∃ bits g', random_bits num_qubits g = Ok (bits, g')
    ∧ Z.of_nat (length bits) = num_qubits
    ∧ Forall is_bit bits.
Proof.
  intros Hn. unfold random_bits, np_random.randint.
  rewrite decide_False by lia.
  destruct (np_random.draws 2 (Z.to_nat num_qubits) g) as [bits g'] eqn:Hd.
  exists bits, g'. split; [done|]. split.
  - replace bits with (np_random.draws 2 (Z.to_nat num_qubits) g).1
      by (by rewrite Hd).
    rewrite draws_length. lia.
  - replace bits with (np_random.draws 2 (Z.to_nat num_qubits) g).1
      by (by rewrite Hd).
    apply draws_bits.
Qed.

(** C6, amended: a negative length is refused, with numpy's ValueError;
    length 0 is not: it returns the empty array and leaves the generator as it
    was. *)
Theorem random_bits_nonpositive (num_qubits : Z) (g : np_random.RandomState) :
  (num_qubits < 0 → random_bits num_qubits g = Raise ValueError)
  ∧ (num_qubits = 0 → random_bits num_qubits g = Ok ([], g)).
Proof.
  unfold random_bits, np_random.randint. split.
  - intros Hneg. by rewrite decide_True.
  - intros ->. reflexivity.
Qed.

Lemma random_bits_nonpositive_witness :
  let g := {| np_random.entropy := λ k, Z.of_nat k; np_random.cursor := 0 |} in
  random_bits (-1) g = Raise ValueError ∧ random_bits 0 g = Ok ([], g).
Proof.
  intros g. split.
  - apply (proj1 (random_bits_nonpositive (-1) g)). lia.
  - apply (proj2 (random_bits_nonpositive 0 g)). reflexivity.
Defined.

(** C6 as stated fails at length 0: an empty array comes back. *)
Lemma random_bits_zero_counterexample :
  ¬ (∀ (num_qubits : Z) (g : np_random.RandomState),
       num_qubits ≤ 0 → ∃ e, random_bits num_qubits g = Raise e).
Proof.
  intros Hclaim.
  destruct (Hclaim 0 {| np_random.entropy := λ k, Z.of_nat k;
                        np_random.cursor := 0 |}) as [e He];
    [lia | discriminate He].
Qed.

Example cell_3_zero :
  let g := {| np_random.entropy := λ k, Z.of_nat k; np_random.cursor := 0 |} in
  cell_3 0 g
  = Ok ({| alice_basis := []; alice_state := []; bob_basis := [] |}, g).
Proof. reflexivity. Qed.

Example cell_3_three :
  let g := {| np_random.entropy := λ k, Z.of_nat k; np_random.cursor := 0 |} in
  (λ r, r.1) <$> (match cell_3 3 g with Ok r => Some r | Raise _ => None end)
  = Some {| alice_basis := [0; 1; 0]; alice_state := [1; 0; 1];
            bob_basis := [0; 1; 0] |}.
Proof. reflexivity. Qed.


(** * Properties beyond the specification *)

(** ** The sifting loop on arbitrary inputs *)

Lemma for_each_ext {St : Type} (idx : list nat)
    (f g : nat → St → result St) (st : St) :
  (∀ i st', f i st' = g i st') → for_each idx f st = for_each idx g st.
Proof.
  intros Hfg. revert st. induction idx as [|i idx IH]; intros st; [done|].
  simpl. rewrite Hfg. destruct (g i st) as [st1|e]; simpl; [apply IH | done].
Qed.

Lemma sift_step_comm (a b : list Z) (t : str) (i : nat) (key : str) :
  sift_step a b t i key = sift_step b a t i key.
Proof.
  unfold sift_step, getitem.
  destruct (a !! i) as [va|], (b !! i) as [vb|]; simpl; try done.
  destruct (decide (va = vb)), (decide (vb = va)); done || congruence.
Qed.

(** X1: the two parties get the same result whoever's basis is given
    first, the raised exception included. *)
Theorem sift_symmetric (num_qubits : nat) (alice_basis bob_basis : list Z)
    (temp_key : str) :
  sift num_qubits alice_basis bob_basis temp_key
  = sift num_qubits bob_basis alice_basis temp_key.
Proof.
  unfold sift, for_range. apply for_each_ext. intros i key.
  apply sift_step_comm.
Qed.

(** One turn of the loop leaves the key or adds one character of the
    outcome string, the one at the index of the turn. *)
Lemma sift_step_cases (a b : list Z) (t : str) (i : nat) (key key' : str) :
  sift_step a b t i key = Ok key' →
  key' = key ∨ ∃ c, t !! i = Some c ∧ key' = key ++ [c].
Proof.
  unfold sift_step, getitem. intros Hstep.
  destruct (a !! i) as [va|]; [|done]. destruct (b !! i) as [vb|]; [|done].
  simpl in Hstep. destruct (decide (va = vb)).
  - destruct (t !! i) as [c|]; [|done]. simpl in Hstep. simplify_eq.
    right. by exists c.
  - simplify_eq. by left.
Qed.

Lemma sift_step_raises (a b : list Z) (t : str) (i : nat) (key : str)
    (e : exn) :
  sift_step a b t i key = Raise e → e = IndexError.
Proof.
  unfold sift_step, getitem. intros Hstep.
  destruct (a !! i) as [va|]; [|simpl in Hstep; congruence].
  destruct (b !! i) as [vb|]; [|simpl in Hstep; congruence].
  simpl in Hstep. destruct (decide (va = vb)); [|done].
  destruct (t !! i) as [c|]; [done | simpl in Hstep; congruence].
Qed.

(** X2: whatever the three sequences and the bound, the only exception the
    sifting loop raises is IndexError. *)
Theorem sift_raises_only_IndexError (num_qubits : nat)
    (alice_basis bob_basis : list Z) (temp_key : str) (e : exn) :
  sift num_qubits alice_basis bob_basis temp_key = Raise e → e = IndexError.
Proof.
  unfold sift, for_range. generalize (seq 0 num_qubits) as idx.
  generalize (@nil ascii) as key. intros key idx. revert key.
  induction idx as [|i idx IH]; intros key Hrun; [done|].
  simpl in Hrun.
  destruct (sift_step alice_basis bob_basis temp_key i key) as [key1|e1]
    eqn:Hstep; simpl in Hrun.
  - by apply (IH key1).
  - simplify_eq. by eapply sift_step_raises.
Qed.

Lemma sift_raises_only_IndexError_witness :
  sift 3 [0; 1; 1] [0; 0; 1] (String.list_ascii_of_string "01")
    = Raise IndexError
  ∧ IndexError = IndexError.
Proof.
  split; [reflexivity|].
  apply (sift_raises_only_IndexError 3 [0; 1; 1] [0; 0; 1]
           (String.list_ascii_of_string "01") IndexError).
  reflexivity.
Defined.

(** The loop from index [s] on: what it adds to the key is picked, in
    order, from the outcome string past position [s]. *)
Lemma sift_loop_sublist (a b : list Z) (t : str) (n s : nat)
    (key key' : str) :
  for_each (seq s n) (sift_step a b t) key = Ok key' →
  ∃ picked, key' = key ++ picked
    ∧ picked `sublist_of` drop s t
    ∧ (length picked ≤ n)%nat.
Proof.
  revert s key. induction n as [|n IH]; intros s key Hrun.
  - simpl in Hrun. simplify_eq. exists []. rewrite app_nil_r.
    split_and!; [done | apply sublist_nil_l | done].
  - simpl in Hrun.
    destruct (sift_step a b t s key) as [key1|e] eqn:Hstep; [|done].
    simpl in Hrun. destruct (IH _ _ Hrun) as (picked & -> & Hsub & Hlen).
    apply sift_step_cases in Hstep as [->|(c & Hc & ->)].
    + exists picked. split_and!; [done| |lia].
      destruct (t !! s) as [c|] eqn:Hc.
      * rewrite (drop_S _ _ _ Hc). by apply sublist_cons.
      * apply lookup_ge_None_1 in Hc.
        rewrite drop_ge in Hsub by lia. by rewrite drop_ge by lia.
    + exists (c :: picked). split_and!.
      * by rewrite <- app_assoc.
      * rewrite (drop_S _ _ _ Hc). by apply sublist_skip.
      * simpl. lia.
Qed.

(** X3: whenever the sifting loop returns, the key is a subsequence of the
    outcome string (characters kept in their order, none invented) and is no
    longer than the bound of the loop nor than the outcome string. *)
Theorem sift_key_subsequence (num_qubits : nat)
    (alice_basis bob_basis : list Z) (temp_key key : str) :
  sift num_qubits alice_basis bob_basis temp_key = Ok key →
  key `sublist_of` temp_key
  ∧ (length key ≤ num_qubits)%nat
  ∧ (length key ≤ length temp_key)%nat.
Proof.
  intros Hrun. unfold sift, for_range in Hrun.
  apply sift_loop_sublist in Hrun as (picked & -> & Hsub & Hlen).
  rewrite drop_0 in Hsub. simpl. split_and!; [done..|].
  by apply sublist_length.
Qed.

Lemma sift_key_subsequence_witness :
  String.list_ascii_of_string "01"
    `sublist_of` String.list_ascii_of_string "0110"
  ∧ (length (String.list_ascii_of_string "01") ≤ 3)%nat
  ∧ (length (String.list_ascii_of_string "01")
     ≤ length (String.list_ascii_of_string "0110"))%nat.
Proof.
  exact (sift_key_subsequence 3 [0; 1; 1] [0; 0; 1]
           (String.list_ascii_of_string "0110")
           (String.list_ascii_of_string "01") eq_refl).
Defined.

Lemma filter_none {A : Type} (P : A → Prop) `{!∀ a, Decision (P a)}
    (l : list A) :
  Forall (λ a, ¬ P a) l → filter P l = [].
Proof.
  induction 1 as [|a l Ha _ IH]; [done|].
  by rewrite filter_cons_False, IH.
Qed.

(** X4: when the bases differ at every index below the bound the key is
    empty and the outcome string is never read: it may be too short, even
    empty. *)
Theorem sift_no_agreement (num_qubits : nat) (alice_basis bob_basis : list Z)
    (temp_key : str) :
  (num_qubits ≤ length alice_basis)%nat →
  (num_qubits ≤ length bob_basis)%nat →
  (∀ i, (i < num_qubits)%nat → alice_basis !! i ≠ bob_basis !! i) →
  sift num_qubits alice_basis bob_basis temp_key = Ok [].
Proof.
  intros Ha Hb Hdiff. unfold sift, for_range. rewrite sift_loop.
  - rewrite filter_none; [done|]. apply Forall_forall.
    intros i Hi%elem_of_seq. apply Hdiff. lia.
  - intros i Hi%elem_of_seq. lia.
  - intros i Hi%elem_of_seq Hagree. destruct (Hdiff i); [lia | done].
Qed.

Lemma sift_no_agreement_witness :
  sift 3 [0; 1; 1] [1; 0; 0] [] = Ok [].
Proof.
  apply (sift_no_agreement 3 [0; 1; 1] [1; 0; 0] []); [simpl; lia..|].
  intros i Hi. destruct i as [|[|[|i]]]; [discriminate..|simpl; lia].
Defined.

Lemma for_each_ext_in {St : Type} (idx : list nat)
    (f g : nat → St → result St) (st : St) :
  (∀ i, i ∈ idx → ∀ st', f i st' = g i st') →
  for_each idx f st = for_each idx g st.
Proof.
  revert st. induction idx as [|i idx IH]; intros st Hfg; [done|].
  simpl. rewrite (Hfg i) by left.
  destruct (g i st) as [st1|e]; simpl; [|done].
  apply IH. intros j Hj. apply Hfg. by right.
Qed.

Lemma for_each_fmap {St : Type} (shift : nat → nat) (idx : list nat)
    (body : nat → St → result St) (st : St) :
  for_each (shift <$> idx) body st
  = for_each idx (λ i, body (shift i)) st.
Proof.
  revert st. induction idx as [|i idx IH]; intros st; [done|].
  rewrite fmap_cons. simpl.
  destruct (body (shift i) st) as [st1|e]; simpl; [apply IH | done].
Qed.

(** A turn of the loop does not look at the key it extends. *)
Lemma sift_step_prefix (a b : list Z) (t : str) (i : nat) (key key0 : str) :
  sift_step a b t i (key ++ key0)
  = (k ← sift_step a b t i key0; Ok (key ++ k)).
Proof.
  unfold sift_step, getitem.
  destruct (a !! i) as [va|]; [|done]. destruct (b !! i) as [vb|]; [|done].
  simpl. destruct (decide (va = vb)); [|done].
  destruct (t !! i) as [c|]; [|done]. simpl. by rewrite app_assoc.
Qed.

Lemma sift_loop_prefix (a b : list Z) (t : str) (idx : list nat)
    (key key0 : str) :
  for_each idx (sift_step a b t) (key ++ key0)
  = (k ← for_each idx (sift_step a b t) key0; Ok (key ++ k)).
Proof.
  revert key0. induction idx as [|i idx IH]; intros key0; [done|].
  simpl. rewrite sift_step_prefix.
  destruct (sift_step a b t i key0) as [key1|e]; simpl; [apply IH | done].
Qed.

(** X5: sifting can be done block by block.  For a first block whose
    three sequences have one length N1, sifting the concatenation of two
    blocks is sifting the first, then the second, and joining the two keys;
    an exception of either block is the exception of the whole. *)
Theorem sift_blocks (N1 N2 : nat) (a1 b1 a2 b2 : list Z) (t1 t2 : str) :
  length a1 = N1 → length b1 = N1 → length t1 = N1 →
  sift (N1 + N2) (a1 ++ a2) (b1 ++ b2) (t1 ++ t2)
  = (k1 ← sift N1 a1 b1 t1; k2 ← sift N2 a2 b2 t2; Ok (k1 ++ k2)).
Proof.
  intros Ha Hb Ht. unfold sift, for_range.
  rewrite seq_app, for_each_app. simpl.
  rewrite (for_each_ext_in (seq 0 N1) _ (sift_step a1 b1 t1)).
  2:{ intros i Hi%elem_of_seq key. unfold sift_step, getitem.
      rewrite !lookup_app_l by lia. done. }
  destruct (for_each (seq 0 N1) (sift_step a1 b1 t1) []) as [k1|e]; [|done].
  simpl.
  replace (seq N1 N2) with (Nat.add N1 <$> seq 0 N2)
    by (rewrite fmap_add_seq; f_equal; lia).
  rewrite for_each_fmap.
  rewrite (for_each_ext_in (seq 0 N2) _ (sift_step a2 b2 t2)).
  2:{ intros i _ key. unfold sift_step, getitem.
      rewrite !lookup_app_r by lia.
      replace (N1 + i - length a1)%nat with i by lia.
      replace (N1 + i - length b1)%nat with i by lia.
      replace (N1 + i - length t1)%nat with i by lia. done. }
  rewrite <- (app_nil_r k1) at 1. apply sift_loop_prefix.
Qed.

Lemma sift_blocks_witness :
  sift (2 + 2) ([0; 0] ++ [1; 1]) ([0; 1] ++ [1; 0])
       (String.list_ascii_of_string "01" ++ String.list_ascii_of_string "11")
  = (k1 ← sift 2 [0; 0] [0; 1] (String.list_ascii_of_string "01");
     k2 ← sift 2 [1; 1] [1; 0] (String.list_ascii_of_string "11");
     Ok (k1 ++ k2)).
Proof.
  exact (sift_blocks 2 2 [0; 0] [0; 1] [1; 1] [1; 0]
           (String.list_ascii_of_string "01")
           (String.list_ascii_of_string "11") eq_refl eq_refl eq_refl).
Defined.

(** ** The statistics on arbitrary strings *)

(** X6: on every string the zeros and the ones together are at most the
    length, and they make up the length exactly when the string holds
    nothing but the characters 0 and 1. *)
Theorem summarize_bounds (key : str) :
  (zeroCount (summarize key) + oneCount (summarize key)
   ≤ key_length (summarize key))%nat
  ∧ ((zeroCount (summarize key) + oneCount (summarize key))%nat
     = key_length (summarize key) ↔ is_bitstring key).
Proof.
  simpl. induction key as [|c key [IHle IHiff]].
  - split; [done|]. split; [constructor | done].
  - rewrite !count_cons. simpl length.
    destruct (decide (c = "0"%char)) as [->|H0].
    + rewrite (decide_False (P := "0"%char = "1"%char)) by done.
      split; [lia|]. split.
      * intros Heq. constructor; [by left|]. apply IHiff. lia.
      * intros Hbits. apply Forall_cons in Hbits as [_ Hbits].
        apply IHiff in Hbits. lia.
    + destruct (decide (c = "1"%char)) as [->|H1].
      * split; [lia|]. split.
        -- intros Heq. constructor; [by right|]. apply IHiff. lia.
        -- intros Hbits. apply Forall_cons in Hbits as [_ Hbits].
           apply IHiff in Hbits. lia.
      * split; [lia|]. split.
        -- intros Heq. lia.
        -- intros Hbits. apply Forall_cons in Hbits as [[?|?] _]; done.
Qed.

Example summarize_non_bit :
  summarize (String.list_ascii_of_string "0 1")
  = {| key_length := 3; zeroCount := 1; oneCount := 1 |}.
Proof. reflexivity. Qed.

Lemma count_sublist (c : ascii) (s1 s2 : str) :
  s1 `sublist_of` s2 → (count c s1 ≤ count c s2)%nat.
Proof.
  induction 1 as [|d s1 s2 _ IH|d s1 s2 _ IH]; [done|..];
    rewrite ?count_cons; lia.
Qed.

(** X7: the key never holds more zeros, nor more ones, than the outcome
    string it was sifted from. *)
Theorem sift_counts_bounded (num_qubits : nat)
    (alice_basis bob_basis : list Z) (temp_key key : str) :
  sift num_qubits alice_basis bob_basis temp_key = Ok key →
  (zeroCount (summarize key) ≤ zeroCount (summarize temp_key))%nat
  ∧ (oneCount (summarize key) ≤ oneCount (summarize temp_key))%nat.
Proof.
  intros Hrun. unfold sift, for_range in Hrun.
  apply sift_loop_sublist in Hrun as (picked & -> & Hsub & _).
  rewrite drop_0 in Hsub. simpl. split; by apply count_sublist.
Qed.

Lemma sift_counts_bounded_witness :
  (zeroCount (summarize (String.list_ascii_of_string "01"))
   ≤ zeroCount (summarize (String.list_ascii_of_string "0110")))%nat
  ∧ (oneCount (summarize (String.list_ascii_of_string "01"))
     ≤ oneCount (summarize (String.list_ascii_of_string "0110")))%nat.
Proof.
  exact (sift_counts_bounded 3 [0; 1; 1] [0; 0; 1]
           (String.list_ascii_of_string "0110")
           (String.list_ascii_of_string "01") eq_refl).
Defined.

(** ** Building the circuit from arrays of different lengths *)

Lemma receiver_step_fits (meas_basis : list Z) (index : nat)
    (circ : QuantumCircuit) (b : Z) :
  meas_basis !! index = Some b →
  (b = 1 → (index < num_qubits circ)%nat) →
  receiver_step meas_basis index circ
  = Ok (append circ (measurementOps index b)).
Proof.
  intros Hb Hq. unfold receiver_step, measurementOps.
  rewrite (getitem_Some _ _ _ Hb). simpl.
  destruct (decide (b = 1)) as [H1|H1].
  - by rewrite h_in_range by auto.
  - by rewrite append_nil.
Qed.

Lemma receiver_step_no_qubit (meas_basis : list Z) (index : nat)
    (circ : QuantumCircuit) :
  meas_basis !! index = Some 1 → (num_qubits circ ≤ index)%nat →
  receiver_step meas_basis index circ = Raise CircuitError.
Proof.
  intros Hb Hq. unfold receiver_step.
  rewrite (getitem_Some _ _ _ Hb). simpl. unfold h.
  by rewrite decide_False by lia.
Qed.

Lemma receiver_loop_fits (meas_basis : list Z) (idx : list nat)
    (circ : QuantumCircuit) :
  (∀ i, i ∈ idx → (i < length meas_basis)%nat) →
  (∀ i, i ∈ idx → meas_basis !! i = Some 1 → (i < num_qubits circ)%nat) →
  for_each idx (receiver_step meas_basis) circ
  = Ok (append circ (concat (rotation_at meas_basis <$> idx))).
Proof.
  revert circ. induction idx as [|i idx IH]; intros circ Hrange Hfits.
  - simpl. by rewrite append_nil.
  - destruct (lookup_lt_is_Some_2 meas_basis i) as [b Hb]; [apply Hrange; left|].
    cbn [for_each]. rewrite (receiver_step_fits _ _ _ b); [|done|].
    + simpl. rewrite IH.
      * rewrite append_append. unfold rotation_at at 2. by rewrite Hb.
      * intros j Hj. apply Hrange. by right.
      * intros j Hj Hone. simpl. apply Hfits; [by right | done].
    + intros ->. apply Hfits; [left | done].
Qed.

Lemma receiver_loop_no_qubit (meas_basis : list Z) (idx : list nat)
    (circ : QuantumCircuit) :
  (∀ i, i ∈ idx → (i < length meas_basis)%nat) →
  (∃ i, i ∈ idx ∧ meas_basis !! i = Some 1 ∧ (num_qubits circ ≤ i)%nat) →
  for_each idx (receiver_step meas_basis) circ = Raise CircuitError.
Proof.
  revert circ. induction idx as [|i idx IH];
    intros circ Hrange (j & Hj & Hone & Hover).
  - by apply elem_of_nil in Hj.
  - destruct (lookup_lt_is_Some_2 meas_basis i) as [b Hb]; [apply Hrange; left|].
    cbn [for_each].
    destruct (decide (b = 1 ∧ (num_qubits circ ≤ i)%nat)) as [[-> Hi]|Hok].
    + by rewrite receiver_step_no_qubit.
    + rewrite (receiver_step_fits _ _ _ b); [|done|].
      * simpl. apply IH.
        -- intros k Hk. apply Hrange. by right.
        -- exists j. split_and!; [|done..].
           apply elem_of_cons in Hj as [->|Hj]; [|done].
           destruct Hok. split; [congruence | done].
      * intros ->. destruct (decide (i < num_qubits circ)%nat); [done|].
        destruct Hok. split; [done | lia].
Qed.

Lemma sender_loop_short_state (enc_state enc_basis : list Z)
    (circ : QuantumCircuit) :
  num_qubits circ = length enc_state →
  (length enc_state < length enc_basis)%nat →
  for_each (seq 0 (length enc_basis)) (sender_step enc_state enc_basis) circ
  = Raise IndexError.
Proof.
  intros Hq Hlen.
  replace (length enc_basis)
    with (length enc_state + S (length enc_basis - S (length enc_state)))%nat
    at 1 by lia.
  rewrite seq_app, for_each_app, sender_loop.
  - simpl. unfold sender_step.
    by rewrite (getitem_None enc_state (length enc_state)) by lia.
  - intros i Hi%elem_of_seq. lia.
Qed.

Lemma preparation_seq_le (enc_state enc_basis : list Z) :
  (length enc_basis ≤ length enc_state)%nat →
  preparation enc_state enc_basis
  = concat (encoding_at enc_state enc_basis <$> seq 0 (length enc_basis)).
Proof.
  intros Hle. unfold preparation. f_equal. apply list_eq. intros i.
  rewrite list_lookup_imap, list_lookup_fmap.
  destruct (decide (i < length enc_basis)%nat) as [Hi|Hi].
  - rewrite lookup_seq_lt by done. simpl.
    destruct (lookup_lt_is_Some_2 enc_state i) as [s Hsi]; [lia|].
    destruct (lookup_lt_is_Some_2 enc_basis i) as [b Hbi]; [lia|].
    rewrite (proj2 (lookup_zip_Some enc_state enc_basis i s b)) by done.
    unfold encoding_at. by rewrite Hsi, Hbi.
  - rewrite lookup_seq_ge by lia.
    rewrite lookup_ge_None_2; [done|]. rewrite length_zip. lia.
Qed.

(** The three ways the construction can end. *)
Lemma make_bb84_circ_cases (enc_state enc_basis meas_basis : list Z) :
  let N := length enc_state in
  ((N < length enc_basis)%nat
   ∧ make_bb84_circ enc_state enc_basis meas_basis = Raise IndexError)
  ∨ ((length enc_basis ≤ N)%nat
     ∧ (∃ i, (N ≤ i)%nat ∧ meas_basis !! i = Some 1)
     ∧ make_bb84_circ enc_state enc_basis meas_basis = Raise CircuitError)
  ∨ ((length enc_basis ≤ N)%nat
     ∧ (∀ i, (N ≤ i)%nat → meas_basis !! i ≠ Some 1)
     ∧ make_bb84_circ enc_state enc_basis meas_basis
       = Ok {| num_qubits := N;
               num_clbits := N;
               data := preparation enc_state enc_basis ++ [Barrier]
                       ++ rotation meas_basis ++ [Barrier]
                       ++ [Measure (seq 0 N) (seq 0 N)] |}).
Proof.
  intros N. unfold make_bb84_circ, for_range. fold N.
  destruct (decide (N < length enc_basis)%nat) as [Hlong|Hfit].
  { left. split; [done|]. by rewrite sender_loop_short_state. }
  right. rewrite sender_loop.
  2:{ intros i Hi%elem_of_seq. simpl. fold N. lia. }
  simpl.
  destruct (decide (Exists (λ i, meas_basis !! i = Some 1 ∧ (N ≤ i)%nat)
                           (seq 0 (length meas_basis)))) as [Hbad|Hgood].
  - left. apply Exists_exists in Hbad as (i & Hi & Hone & Hover).
    split; [lia|]. split; [by exists i|].
    rewrite receiver_loop_no_qubit; [done|..].
    + intros j Hj%elem_of_seq. lia.
    + by exists i.
  - right. apply not_Exists_Forall in Hgood; [|apply _].
    rewrite Forall_forall in Hgood.
    assert (Hnone : ∀ i, (N ≤ i)%nat → meas_basis !! i ≠ Some 1).
    { intros i Hi Hone. apply (Hgood i); [|done].
      apply elem_of_seq. apply lookup_lt_Some in Hone. lia. }
    split; [lia|]. split; [done|].
    rewrite receiver_loop_fits.
    + simpl. unfold measure_all. simpl. f_equal.
      rewrite preparation_seq_le, rotation_seq by lia.
      f_equal. by rewrite <- !app_assoc.
    + intros j Hj%elem_of_seq. lia.
    + intros j Hj Hone. simpl. fold N.
      destruct (decide (j < N)%nat); [done|]. destruct (Hnone j); [lia|done].
Qed.

(** X8: on a non-empty state array the construction ends in exactly one of
    three ways.  It raises IndexError exactly when the encoding basis is
    longer than the state array; it raises CircuitError exactly when the
    encoding basis fits and the measurement basis holds a 1 at an index the
    circuit has no qubit for; otherwise it returns a circuit: shorter basis
    arrays, and longer measurement bases without such a 1, are accepted in
    silence. *)
Theorem make_bb84_circ_outcome (enc_state enc_basis meas_basis : list Z) :
  (0 < length enc_state)%nat →
  (make_bb84_circ enc_state enc_basis meas_basis = Raise IndexError
   ↔ (length enc_state < length enc_basis)%nat)
  ∧ (make_bb84_circ enc_state enc_basis meas_basis = Raise CircuitError
     ↔ (length enc_basis ≤ length enc_state)%nat
       ∧ ∃ i, (length enc_state ≤ i)%nat ∧ meas_basis !! i = Some 1)
  ∧ ((∃ circ, make_bb84_circ enc_state enc_basis meas_basis = Ok circ)
     ↔ (length enc_basis ≤ length enc_state)%nat
       ∧ ∀ i, (length enc_state ≤ i)%nat → meas_basis !! i ≠ Some 1).
Proof.
  intros _.
  pose proof (make_bb84_circ_cases enc_state enc_basis meas_basis) as Hcases.
  cbv zeta in Hcases.
  destruct Hcases
    as [(Hlen & Hrun)|[(Hlen & (i & Hi & Hone) & Hrun)|(Hlen & Hnone & Hrun)]];
    rewrite Hrun; clear Hrun.
  - split_and!; split; try done; try lia;
      try (intros [? ?]; done); try (intros [? ?]; lia).
  - split_and!; split; try done; try lia;
      try (intros [? ?]; done); try (intros [? ?]; lia).
    + intros _. split; [done|]. by exists i.
    + intros [_ Hnone]. by destruct (Hnone i).
  - split_and!; split; try done; try lia;
      try (intros [? ?]; done); try (intros [? ?]; lia).
    + intros [_ (i & Hi & Hone)]. by destruct (Hnone i).
    + intros _. by eexists.
Qed.

Lemma make_bb84_circ_outcome_witness :
  make_bb84_circ [0; 1] [0; 1; 1] [0; 1] = Raise IndexError
  ∧ make_bb84_circ [0; 1] [0; 1] [0; 1; 1] = Raise CircuitError
  ∧ (∃ circ, make_bb84_circ [0; 1] [1] [0; 1; 0] = Ok circ).
Proof.
  split_and!.
  - apply (proj1 (make_bb84_circ_outcome [0; 1] [0; 1; 1] [0; 1]
                    ltac:(simpl; lia))).
    simpl. lia.
  - apply (proj1 (proj2 (make_bb84_circ_outcome [0; 1] [0; 1] [0; 1; 1]
                           ltac:(simpl; lia)))).
    split; [simpl; lia|]. exists 2%nat. split; [simpl; lia | reflexivity].
  - apply (proj2 (proj2 (make_bb84_circ_outcome [0; 1] [1] [0; 1; 0]
                           ltac:(simpl; lia)))).
    split; [simpl; lia|]. intros i Hi.
    destruct i as [|[|[|i]]]; simpl in *; (lia || discriminate).
Defined.

Example shorter_bases_accepted :
  make_bb84_circ [1; 1; 1] [1] [] 
  = Ok {| num_qubits := 3; num_clbits := 3;
          data := [XGate 0; HGate 0; Barrier; Barrier;
                   Measure [0; 1; 2]%nat [0; 1; 2]%nat] |}.
Proof. reflexivity. Qed.

(** ** What every built circuit satisfies *)





















(** ** Reversing the wires *)

Lemma flip_flip (N q : nat) : (q < N)%nat → flip N (flip N q) = q.
Proof. unfold flip. lia. Qed.

Lemma flip_lt (N q : nat) : (q < N)%nat → (flip N q < N)%nat.
Proof. unfold flip. lia. Qed.

Lemma fmap_flip_flip (N : nat) (ws : list nat) :
  Forall (λ w, (w < N)%nat) ws → flip N <$> (flip N <$> ws) = ws.
Proof.
  induction 1 as [|w ws Hw _ IH]; [done|].
  rewrite !fmap_cons, IH. by rewrite flip_flip.
Qed.

Lemma fmap_flip_lt (N : nat) (ws : list nat) :
  Forall (λ w, (w < N)%nat) ws → Forall (λ w, (w < N)%nat) (flip N <$> ws).
Proof.
  intros Hws. apply Forall_fmap. eapply Forall_impl; [done|].
  intros w Hw. simpl. by apply flip_lt.
Qed.

Lemma reverse_instruction_twice (nq nc : nat) (inst : Instruction) :
  wires_in_range nq nc inst →
  reverse_instruction nq nc (reverse_instruction nq nc inst) = inst.
Proof.
  destruct inst as [q|q| |qs cs]; simpl.
  - intros Hq. by rewrite flip_flip.
  - intros Hq. by rewrite flip_flip.
  - done.
  - intros [Hqs Hcs]. by rewrite !fmap_flip_flip.
Qed.

Lemma reverse_instruction_in_range (nq nc : nat) (inst : Instruction) :
  wires_in_range nq nc inst →
  wires_in_range nq nc (reverse_instruction nq nc inst).
Proof.
  destruct inst as [q|q| |qs cs]; simpl.
  - apply flip_lt.
  - apply flip_lt.
  - done.
  - intros [Hqs Hcs]. split; by apply fmap_flip_lt.
Qed.

(** On a circuit that names only wires it has, reversing the wires twice
    gives the circuit back. *)
Lemma reverse_bits_involutive (circ : QuantumCircuit) :
  well_formed circ → reverse_bits (reverse_bits circ) = circ.
Proof.
  destruct circ as [nq nc ops]. unfold well_formed, reverse_bits. simpl.
  intros Hops. f_equal.
  induction Hops as [|inst ops Hinst _ IH]; [done|].
  rewrite !fmap_cons, IH. by rewrite reverse_instruction_twice.
Qed.

Lemma reverse_bits_involutive_witness :
  let circ := {| num_qubits := 3; num_clbits := 3;
                 data := [XGate 0; HGate 2; Barrier;
                          Measure [0; 1; 2]%nat [0; 1; 2]%nat] |} in
  well_formed circ ∧ reverse_bits (reverse_bits circ) = circ.
Proof.
  intros circ.
  assert (Hwf : well_formed circ).
  { unfold well_formed, circ. simpl.
    repeat (apply Forall_cons_2 || apply Forall_nil_2 || split);
      simpl; try lia; done. }
  split; [exact Hwf|]. exact (reverse_bits_involutive circ Hwf).
Defined.

(** Out of range the second reversal does not undo the first. *)
Example reverse_bits_out_of_range :
  reverse_bits (reverse_bits {| num_qubits := 1; num_clbits := 0;
                                data := [XGate 5] |})
  = {| num_qubits := 1; num_clbits := 0; data := [XGate 0] |}.
Proof. reflexivity. Qed.

(** Reversing the wires keeps a circuit well formed, with the same numbers
    of qubits and classical bits and the same number of instructions of each
    kind. *)
Lemma reverse_bits_well_formed (circ : QuantumCircuit) :
  well_formed circ →
  well_formed (reverse_bits circ)
  ∧ num_qubits (reverse_bits circ) = num_qubits circ
  ∧ num_clbits (reverse_bits circ) = num_clbits circ
  ∧ how_many is_XGate (data (reverse_bits circ))
    = how_many is_XGate (data circ)
  ∧ how_many is_HGate (data (reverse_bits circ))
    = how_many is_HGate (data circ)
  ∧ how_many is_Barrier (data (reverse_bits circ))
    = how_many is_Barrier (data circ)
  ∧ how_many is_Measure (data (reverse_bits circ))
    = how_many is_Measure (data circ).
Proof.
  destruct circ as [nq nc ops]. unfold well_formed, reverse_bits. simpl.
  intros Hops.
  assert (Hkind : ∀ kind : Instruction → bool,
            (∀ inst, kind (reverse_instruction nq nc inst) = kind inst) →
            how_many kind (reverse_instruction nq nc <$> ops)
            = how_many kind ops).
  { intros kind Hk. unfold how_many. clear Hops.
    induction ops as [|inst ops IH]; [done|].
    rewrite fmap_cons, !filter_cons, Hk.
    destruct (decide (kind inst)); simpl; by rewrite IH. }
  split_and!; try done; try (apply Hkind; by intros []).
  apply Forall_fmap. eapply Forall_impl; [done|].
  intros inst Hinst. by apply reverse_instruction_in_range.
Qed.

Lemma reverse_bits_well_formed_witness :
  let circ := {| num_qubits := 3; num_clbits := 3;
                 data := [XGate 0; HGate 2; Barrier;
                          Measure [0; 1; 2]%nat [0; 1; 2]%nat] |} in
  well_formed circ
  ∧ well_formed (reverse_bits circ)
  ∧ num_qubits (reverse_bits circ) = num_qubits circ
  ∧ num_clbits (reverse_bits circ) = num_clbits circ
  ∧ how_many is_XGate (data (reverse_bits circ))
    = how_many is_XGate (data circ)
  ∧ how_many is_HGate (data (reverse_bits circ))
    = how_many is_HGate (data circ)
  ∧ how_many is_Barrier (data (reverse_bits circ))
    = how_many is_Barrier (data circ)
  ∧ how_many is_Measure (data (reverse_bits circ))
    = how_many is_Measure (data circ).
Proof.
  intros circ.
  assert (Hwf : well_formed circ).
  { unfold well_formed, circ. simpl.
    repeat (apply Forall_cons_2 || apply Forall_nil_2 || split);
      simpl; try lia; done. }
  split; [exact Hwf|]. exact (reverse_bits_well_formed circ Hwf).
Defined.

Lemma wires_gate_in_range (nq nc : nat) (ops : list Instruction) :
  Forall (wires_in_range nq nc) ops → Forall (gate_in_range nq) ops.
Proof.
  intros Hops. eapply Forall_impl; [done|]. by intros [q|q| |qs cs].
Qed.

(** A measurement after the flip stores into the flipped classical bit what
    it read from the flipped qubits. *)
Lemma reads_into_reverse (nq nc c : nat) (qs cs : list nat) :
  Forall (λ w, (w < nc)%nat) cs → (c < nc)%nat →
  reads_into (flip nc c) (Measure (flip nq <$> qs) (flip nc <$> cs))
  = flip nq <$> reads_into c (Measure qs cs).
Proof.
  intros Hcs Hc. simpl. revert qs.
  induction Hcs as [|c' cs Hc' _ IH]; intros [|q qs]; simpl; try done.
  rewrite !filter_cons. simpl.
  destruct (decide (flip nc c' = flip nc c)) as [Hf|Hf],
    (decide (c' = c)) as [Heq|Hne]; simpl.
  - by rewrite IH.
  - apply flip_inj in Hf; done.
  - subst. done.
  - apply IH.
Qed.

(** What reversing the wires does to a well-formed circuit.  The gates of
    qubit i, in their order, are found on qubit N-1-i, and the classical bit
    M-1-c receives the measurements of the flipped qubits that bit c
    received. *)
Lemma reverse_bits_wires (circ : QuantumCircuit) (i c : nat) :
  well_formed circ →
  (i < num_qubits circ)%nat → (c < num_clbits circ)%nat →
  wire (reverse_bits circ) (flip (num_qubits circ) i) = wire circ i
  ∧ measured_into (reverse_bits circ) (flip (num_clbits circ) c)
    = flip (num_qubits circ) <$> measured_into circ c.
Proof.
  destruct circ as [nq nc ops].
  unfold well_formed, wire, measured_into, reverse_bits. simpl.
  intros Hops Hi Hc. split.
  - apply wire_reverse; [|done]. by eapply wires_gate_in_range.
  - induction Hops as [|inst ops Hinst _ IH]; [done|].
    rewrite !fmap_cons, !concat_cons, fmap_app, IH. f_equal.
    destruct inst as [q|q| |qs cs]; try done.
    destruct Hinst as [_ Hcs]. by apply reads_into_reverse.
Qed.

Lemma reverse_bits_wires_witness :
  let circ := {| num_qubits := 3; num_clbits := 3;
                 data := [XGate 0; HGate 2; Barrier;
                          Measure [0; 1; 2]%nat [0; 1; 2]%nat] |} in
  wire (reverse_bits circ) (flip (num_qubits circ) 0) = wire circ 0
  ∧ measured_into (reverse_bits circ) (flip (num_clbits circ) 1)
    = flip (num_qubits circ) <$> measured_into circ 1.
Proof.
  intros circ.
  apply (reverse_bits_wires circ 0 1); [|simpl; lia..].
  unfold well_formed, circ. simpl.
  repeat (apply Forall_cons_2 || apply Forall_nil_2 || split);
    simpl; try lia; done.
Defined.

(** ** The cells end to end *)

(** Sifting the string of one shot: the values of the classical bits
    N-1-j for the agreeing indices j. *)
Lemma sift_most_frequent (shot : QuantumCircuit → nat → bool)
    (circ : QuantumCircuit) (N : nat) (a b : list Z) :
  num_clbits circ = N → length a = N → length b = N →
  sift N a b (most_frequent shot circ)
  = Ok ((λ j, bit_char (shot circ (flip N j))) <$> agreeing N a b).
Proof.
  intros Hnc Ha Hb.
  assert (Hlen : length (most_frequent shot circ) = N).
  { unfold most_frequent. by rewrite length_fmap, length_seq. }
  rewrite sift_in_range; [|done|done|].
  2:{ intros j [? _]%elem_of_agreeing. lia. }
  f_equal.
  assert (Hin : ∀ j, j ∈ agreeing N a b → (j < N)%nat)
    by (by intros j [? _]%elem_of_agreeing).
  induction (agreeing N a b) as [|j idx IH]; [done|].
  rewrite fmap_cons. cbn [omap list_omap].
  rewrite most_frequent_lookup.
  - rewrite Hnc. simpl. f_equal. apply IH. intros k Hk. apply Hin. by right.
  - rewrite Hnc. apply Hin. left.
Qed.

Lemma bit_chars_bitstring {A : Type} (f : A → bool) (l : list A) :
  is_bitstring ((λ j, bit_char (f j)) <$> l).
Proof.
  apply Forall_fmap, Forall_forall. intros j _. simpl.
  destruct (f j); [by right | by left].
Qed.

Lemma agreeing_length (N : nat) (a b : list Z) :
  (length (agreeing N a b) ≤ N)%nat.
Proof.
  unfold agreeing. etrans; [apply length_filter|]. by rewrite length_seq.
Qed.

(** X12: cell 7 never raises on three arrays of the length num_qubits > 0,
    whatever the shot returns.  The key it prints holds, for the agreeing
    indices j in ascending order, the value the shot left in classical bit
    N-1-j of the reversed circuit; it is a string of 0 and 1 no longer than
    num_qubits, and the report is its summary. *)
Theorem cell_7_total (shot : QuantumCircuit → nat → bool) (num_qubits : nat)
    (bits : Bitstrings) :
  (0 < num_qubits)%nat →
  length (alice_state bits) = num_qubits →
  length (alice_basis bits) = num_qubits →
  length (bob_basis bits) = num_qubits →
  ∃ bb84_circ key,
    make_bb84_circ (alice_state bits) (alice_basis bits) (bob_basis bits)
    = Ok bb84_circ
    ∧ cell_7 shot num_qubits bits = Ok (key, summarize key)
    ∧ key = (λ j, bit_char (shot (reverse_bits bb84_circ) (flip num_qubits j)))
            <$> agreeing num_qubits (alice_basis bits) (bob_basis bits)
    ∧ (length key ≤ num_qubits)%nat
    ∧ is_bitstring key.
Proof.
  intros _ Hs Ha Hb.
  pose proof (make_bb84_circ_data _ _ _ num_qubits Hs Ha Hb) as Hcirc.
  eexists _, _. split; [exact Hcirc|]. split_and!.
  - unfold cell_7. rewrite Hcirc. simpl.
    by rewrite (sift_most_frequent _ _ num_qubits).
  - done.
  - rewrite length_fmap. apply agreeing_length.
  - apply bit_chars_bitstring.
Qed.

Lemma cell_7_total_witness :
  let shot := λ (_ : QuantumCircuit) (c : nat), Nat.eqb c 1 in
  let bits := {| alice_basis := [0; 0; 1; 1]; alice_state := [0; 1; 1; 0];
                 bob_basis := [0; 1; 1; 0] |} in
  ∃ bb84_circ key,
    make_bb84_circ (alice_state bits) (alice_basis bits) (bob_basis bits)
    = Ok bb84_circ
    ∧ cell_7 shot 4 bits = Ok (key, summarize key)
    ∧ key = (λ j, bit_char (shot (reverse_bits bb84_circ) (flip 4 j)))
            <$> agreeing 4 (alice_basis bits) (bob_basis bits)
    ∧ (length key ≤ 4)%nat
    ∧ is_bitstring key.
Proof.
  intros shot bits.
  apply (cell_7_total shot 4 bits); [lia | reflexivity..].
Defined.

Example cell_7_scenario :
  cell_7 (λ _ c, Nat.eqb c 1) 4
    {| alice_basis := [0; 0; 1; 1]; alice_state := [0; 1; 1; 0];
       bob_basis := [0; 1; 1; 0] |}
  = Ok (String.list_ascii_of_string "01",
        {| key_length := 2; zeroCount := 1; oneCount := 1 |}).
Proof. reflexivity. Qed.

(** The generator after the draws: the same tape, the cursor moved on. *)
Lemma draws_state (high : Z) (n : nat) (g : np_random.RandomState) :
  (np_random.draws high n g).2
  = {| np_random.entropy := np_random.entropy g;
       np_random.cursor := (np_random.cursor g + n)%nat |}.
Proof.
  revert g. induction n as [|n IH]; intros g.
  - destruct g as [tape c]. simpl. f_equal. lia.
  - simpl. specialize (IH {| np_random.entropy := np_random.entropy g;
                             np_random.cursor := S (np_random.cursor g) |}).
    destruct (np_random.draws high n _) as [vs g2]. simpl in *.
    rewrite IH. f_equal. lia.
Qed.

Lemma draws_lookup (high : Z) (n : nat) (g : np_random.RandomState) (i : nat) :
  (i < n)%nat →
  (np_random.draws high n g).1 !! i
  = Some (np_random.entropy g (np_random.cursor g + i)%nat `mod` high).
Proof.
  revert g i. induction n as [|n IH]; intros g i Hi; [lia|].
  simpl. specialize (IH {| np_random.entropy := np_random.entropy g;
                           np_random.cursor := S (np_random.cursor g) |}).
  destruct (np_random.draws high n _) as [vs g2]. simpl in *.
  destruct i as [|i]; simpl.
  - by rewrite Nat.add_0_r.
  - rewrite IH by lia. do 3 f_equal. lia.
Qed.

Lemma random_bits_draws (n : nat) (g : np_random.RandomState) :
  random_bits (Z.of_nat n) g
  = Ok ((np_random.draws 2 n g).1,
        {| np_random.entropy := np_random.entropy g;
           np_random.cursor := (np_random.cursor g + n)%nat |}).
Proof.
  unfold random_bits, np_random.randint. rewrite decide_False by lia.
  rewrite Nat2Z.id, <- (draws_state 2 n g).
  by destruct (np_random.draws 2 n g).
Qed.

(** X13: for a length that is not negative, cell 3 returns three arrays of
    exactly that length whose elements are 0 or 1.  They come from disjoint,
    consecutive stretches of the generator, in the order the cell draws
    them (alice_basis, alice_state, bob_basis), and the generator is left
    three lengths further. *)
Theorem cell_3_arrays (num_qubits : nat) (g : np_random.RandomState) :
  ∃ bits g',
    cell_3 (Z.of_nat num_qubits) g = Ok (bits, g')
    ∧ length (alice_basis bits) = num_qubits
    ∧ length (alice_state bits) = num_qubits
    ∧ length (bob_basis bits) = num_qubits
    ∧ Forall is_bit (alice_basis bits)
    ∧ Forall is_bit (alice_state bits)
    ∧ Forall is_bit (bob_basis bits)
    ∧ (∀ i, (i < num_qubits)%nat →
         let c := np_random.cursor g in
         let bit k := np_random.entropy g k `mod` 2 in
         alice_basis bits !! i = Some (bit (c + i)%nat)
         ∧ alice_state bits !! i = Some (bit (c + num_qubits + i)%nat)
         ∧ bob_basis bits !! i = Some (bit (c + 2 * num_qubits + i)%nat))
    ∧ g' = {| np_random.entropy := np_random.entropy g;
              np_random.cursor := (np_random.cursor g + 3 * num_qubits)%nat |}.
Proof.
  unfold cell_3. rewrite random_bits_draws. simpl.
  rewrite random_bits_draws. simpl. rewrite random_bits_draws. simpl.
  eexists _, _. split; [reflexivity|]. simpl.
  split_and!; try apply draws_length; try apply draws_bits.
  - intros i Hi. simpl. rewrite !draws_lookup by done. simpl.
    split_and!; do 3 f_equal; lia.
  - f_equal. lia.
Qed.

Example cell_3_negative :
  cell_3 (-1) {| np_random.entropy := λ k, Z.of_nat k; np_random.cursor := 0 |}
  = Raise ValueError.
Proof. reflexivity. Qed.

(** X14: the run of the notebook, cell 3 then cell 7, raises nothing for
    a positive num_qubits, whatever the generator and the shot give: it ends
    with a key of 0 and 1 characters no longer than num_qubits and the
    summary of that key. *)
Theorem notebook_run_total (shot : QuantumCircuit → nat → bool)
    (num_qubits : nat) (g : np_random.RandomState) :
  (0 < num_qubits)%nat →
  ∃ bits g' key,
    cell_3 (Z.of_nat num_qubits) g = Ok (bits, g')
    ∧ cell_7 shot num_qubits bits = Ok (key, summarize key)
    ∧ (length key ≤ num_qubits)%nat
    ∧ is_bitstring key
    ∧ (zeroCount (summarize key) + oneCount (summarize key))%nat
      = key_length (summarize key).
Proof.
  intros _. unfold cell_3. rewrite random_bits_draws. simpl.
  rewrite random_bits_draws. simpl. rewrite random_bits_draws. simpl.
  eexists _, _, _. split; [reflexivity|].
  unfold cell_7. simpl.
  rewrite (make_bb84_circ_data _ _ _ num_qubits) by apply draws_length.
  simpl. rewrite (sift_most_frequent _ _ num_qubits);
    [|done|apply draws_length..].
  simpl. split; [reflexivity|]. split_and!.
  - rewrite length_fmap. apply agreeing_length.
  - apply bit_chars_bitstring.
  - apply count_bits, bit_chars_bitstring.
Qed.

Lemma notebook_run_total_witness :
  let shot := λ (_ : QuantumCircuit) (c : nat), Nat.even c in
  let g := {| np_random.entropy := λ k, Z.of_nat k; np_random.cursor := 0 |} in
  ∃ bits g' key,
    cell_3 (Z.of_nat 3) g = Ok (bits, g')
    ∧ cell_7 shot 3 bits = Ok (key, summarize key)
    ∧ (length key ≤ 3)%nat
    ∧ is_bitstring key
    ∧ (zeroCount (summarize key) + oneCount (summarize key))%nat
      = key_length (summarize key).
Proof.
  intros shot g. apply (notebook_run_total shot 3 g). lia.
Defined.

(** ** The circuit that is executed *)




Example executed_circuit_scenario :
  reverse_bits {| num_qubits := 4; num_clbits := 4;
                  data := [XGate 1; XGate 2; HGate 2; HGate 3; Barrier;
                           HGate 1; HGate 2; Barrier;
                           Measure [0; 1; 2; 3]%nat [0; 1; 2; 3]%nat] |}
  = {| num_qubits := 4; num_clbits := 4;
       data := [XGate 2; XGate 1; HGate 1; HGate 0; Barrier;
                HGate 2; HGate 1; Barrier;
                Measure [3; 2; 1; 0]%nat [3; 2; 1; 0]%nat] |}.
Proof. reflexivity. Qed.

(** ** What the sifting loop reads *)

(** X15: the sifting loop reads nothing at or beyond index num_qubits:
    cutting the three sequences down to their first num_qubits elements
    changes neither the key nor the exception. *)
Theorem sift_reads_prefix (num_qubits : nat) (alice_basis bob_basis : list Z)
    (temp_key : str) :
  sift num_qubits alice_basis bob_basis temp_key
  = sift num_qubits (take num_qubits alice_basis)
         (take num_qubits bob_basis) (take num_qubits temp_key).
Proof.
  unfold sift, for_range. apply for_each_ext_in.
  intros i Hi%elem_of_seq key. unfold sift_step, getitem.
  rewrite !lookup_take_lt by lia. done.
Qed.

Example sift_ignores_tail :
  sift 2 [0; 1; 5; 5] [0; 0; 7] (String.list_ascii_of_string "10xyz")
  = Ok (String.list_ascii_of_string "1").
Proof. reflexivity. Qed.
